(** * backdrop: a request-scoped context store served by a worker loop

    Shallow embedding of [backdrop.go].  The package keeps one global map
    [contexts : map[*http.Request]context.Context]; the public functions
    ([Get], [Set], [GetContext], [SetContext], [Evict]) send a message on a
    channel and block on the reply, and [worker] serves one message per
    iteration of its [select] loop.

    The development has four parts: the chains of [golang.org/x/net/context]
    that the package builds; the body of each [select] case as a function on
    the store, and the public functions as "send, serve, receive"; the
    goroutines of [startBackdrop] and [Stop] as a transition system driven by a
    schedule; and the properties. *)

From stdpp Require Import gmap strings list.
From Stdlib Require Import ZArith.

(** ** Context chains ([golang.org/x/net/context]) *)

Module context.

(** Every call of [WithCancel] allocates a cancellation node; the node and the
    [CancelFunc] closing over it are identified by the same number. *)
Definition cancel_id := positive.
Bind Scope positive_scope with cancel_id.

(** Keys are [interface{}] values compared with [==]: two keys are equal when
    they have the same dynamic type and the same value.  The model covers the
    two key types the package and its tests use, [int] and [string]. *)
Inductive key :=
| KInt (n : Z)
| KString (s : string).

#[global] Instance key_eq_dec : EqDecision key.
Proof. solve_decision. Defined.

(** A chain is an immutable linked structure built by [Background()],
    [WithCancel(parent)] and [WithValue(parent, key, val)].  Values are
    [interface{}]: the nil interface, an int, a string, a [context.CancelFunc],
    or a (non-nil) [context.Context]. *)
Inductive ctx :=
| Background
| cancelCtx (parent : ctx) (id : cancel_id)
| valueCtx (parent : ctx) (k : key) (val : value)
with value :=
| VNil
| VInt (n : Z)
| VString (s : string)
| VCancelFunc (id : cancel_id)
| VContext (c : ctx).

(** [ctx.Value(key)]: the topmost binding of [key], nil when there is none.
    [cancelCtx] embeds its parent and so delegates [Value] to it. *)
Fixpoint Value (c : ctx) (k : key) : value :=
  match c with
  | Background => VNil
  | cancelCtx parent _ => Value parent k
  | valueCtx parent k' val => if decide (k' = k) then val else Value parent k
  end.

(** Whether the channel [ctx.Done()] is closed, given the set of cancel
    functions that have been called: a chain is done as soon as one of the
    cancellation nodes on its parent path has been cancelled.
    [Background().Done()] is the nil channel, which is never ready. *)
Fixpoint Done (fired : gset cancel_id) (c : ctx) : bool :=
  match c with
  | Background => false
  | cancelCtx parent id => bool_decide (id ∈ fired) || Done fired parent
  | valueCtx parent _ _ => Done fired parent
  end.

(** The cancellation nodes on the parent path of a chain. *)
Fixpoint cancel_nodes (c : ctx) : list cancel_id :=
  match c with
  | Background => []
  | cancelCtx parent id => id :: cancel_nodes parent
  | valueCtx parent _ _ => cancel_nodes parent
  end.

(** [v == nil] on an [interface{}]. *)
Definition is_nil (v : value) : bool :=
  match v with
  | VNil => true
  | _ => false
  end.

End context.

Import context.

(** ** The package state *)

(** [*http.Request]: the store only compares the pointers. *)
Definition request := positive.
Bind Scope positive_scope with request.

(** [contexts] maps a request to a [context.Context] interface value, which may
    be the nil interface ([None]); [fired] records which cancel functions have
    been called; [next_cancel] is the allocator of [context.WithCancel]. *)
Record store := Store {
  contexts : gmap request (option ctx);
  fired : gset cancel_id;
  next_cancel : cancel_id;
}.

Definition set_contexts (f : gmap request (option ctx) → gmap request (option ctx))
    (st : store) : store :=
  Store (f (contexts st)) (fired st) (next_cancel st).

(** [context.WithCancel(parent)]: a fresh cancellation node below [parent] and
    the function that cancels it. *)
Definition WithCancel (parent : ctx) (st : store) : ctx * value * store :=
  let id := next_cancel st in
  (cancelCtx parent id, VCancelFunc id,
   Store (contexts st) (fired st) (Pos.succ id)).

(** [context.WithValue(parent, key, val)]. *)
Definition WithValue (parent : ctx) (k : key) (val : value) : ctx :=
  valueCtx parent k val.

(** Calling a [CancelFunc]. *)
Definition call_cancel (id : cancel_id) (st : store) : store :=
  Store (contexts st) ({[ id ]} ∪ fired st) (next_cancel st).

Inductive error :=
| ErrSettingToBackdrop
| ErrGettingFromBackdrop
| ErrEvictingFromBackdrop.

(** [const ( workerDoneKey int = iota; cancelKey )] *)
Definition workerDoneKey : key := KInt 0.
Definition cancelKey : key := KInt 1.

(** ** The worker *)

(** What a [select] case does: it sends its reply on [RespondTo] and goes back
    to the loop, or it blocks on [<-c.Done()] for a chain [c] that is not
    cancelled, and sends nothing until some other goroutine cancels [c]. *)
Inductive outcome (A : Type) :=
| Replied (st : store) (a : A)
| Blocked (st : store) (c : ctx).
Arguments Replied {A} st a.
Arguments Blocked {A} st c.

Definition bind {A B} (o : outcome A) (f : store → A → outcome B) : outcome B :=
  match o with
  | Replied st a => f st a
  | Blocked st c => Blocked st c
  end.

Definition map_outcome {A B} (f : A → B) (o : outcome A) : outcome B :=
  bind o (fun st a => Replied st (f a)).

(** The store a case leaves behind. *)
Definition store_of {A} (o : outcome A) : store :=
  match o with
  | Replied st _ | Blocked st _ => st
  end.

(** The guard [if ctx, ok := contexts[r]; ok && ctx != nil] that three of the
    cases share. *)
Definition lookup_ctx (st : store) (r : request) : option ctx :=
  match contexts st !! r with
  | Some (Some c) => Some c
  | _ => None
  end.

(** [case message := <-fetchCtx] *)
Definition on_fetchCtx (baseCtx : ctx) (st : store) (r : request)
    : outcome (option ctx) :=
  match lookup_ctx st r with
  | Some c => Replied st (Some c)
  | None =>
      let '(c, cancel, st) := WithCancel baseCtx st in
      let c := WithValue c cancelKey cancel in
      Replied (set_contexts <[ r := Some c ]> st) (Some c)
  end.

(** [case message := <-fetch] *)
Definition on_fetch (st : store) (r : request) (k : key) : outcome value :=
  match lookup_ctx st r with
  | Some c => Replied st (Value c k)
  | None => Replied st VNil
  end.

(** [case message := <-kill].  The two [fmt.Println] calls only write to
    standard output and are left out. *)
Definition on_kill (st : store) (r : request) : outcome (option error) :=
  match contexts st !! r with
  | Some (Some c) =>
      match Value c cancelKey with
      | VCancelFunc id =>
          let st := call_cancel id st in
          if Done (fired st) c
          then Replied (set_contexts (delete r) st) None
          else Blocked st c
      | _ => Replied st None
      end
  | _ => Replied st None
  end.

(** [case message := <-setCtx] *)
Definition on_setCtx (st : store) (r : request) (c : option ctx)
    : outcome (option error) :=
  match contexts st !! r with
  | Some _ => Replied (set_contexts <[ r := c ]> st) None
  | None => Replied st None
  end.

(** [case message := <-set]; the reply is the new chain, boxed in
    [interface{}]. *)
Definition on_set (baseCtx : ctx) (st : store) (r : request) (k : key) (v : value)
    : outcome value :=
  match lookup_ctx st r with
  | Some c =>
      let c := WithValue c k v in
      Replied (set_contexts <[ r := Some c ]> st) (VContext c)
  | None =>
      let '(c, cancel, st) := WithCancel baseCtx st in
      let c := WithValue c k v in
      let c := WithValue c cancelKey cancel in
      Replied (set_contexts <[ r := Some c ]> st) (VContext c)
  end.

(** *** The public functions

    Each sends one message and waits for the reply; with a worker serving the
    message, the call is the corresponding case followed by what the function
    does with the answer. *)

Definition Evict (st : store) (r : request) : outcome (option error) :=
  on_kill st r.

Definition GetContext (baseCtx : ctx) (st : store) (r : request)
    : outcome (option ctx) :=
  on_fetchCtx baseCtx st r.

Definition SetContext (st : store) (r : request) (c : option ctx)
    : outcome (option error) :=
  on_setCtx st r c.

(** [Set]; the name is a keyword here. *)
Definition Set_ (baseCtx : ctx) (st : store) (r : request) (k : key) (v : value)
    : outcome (option error) :=
  bind (on_set baseCtx st r k v) (fun st response =>
    if is_nil response then Replied st (Some ErrSettingToBackdrop)
    else Replied st None).

Definition Get (st : store) (r : request) (k : key)
    : outcome (value * option error) :=
  bind (on_fetch st r k) (fun st v =>
    if is_nil v then Replied st (VNil, Some ErrGettingFromBackdrop)
    else Replied st (v, None)).

(** *** Messages and the loop *)

(** The five message kinds.  [valueMessage] travels on two channels, [fetch]
    and [set]; the channel decides the case, so it gets two constructors.
    The [RespondTo] channel of a message is where its reply goes. *)
Inductive message :=
| fetchCtxMessage (r : request)
| setCtxMessage (r : request) (c : option ctx)
| fetchValueMessage (r : request) (k : key)
| setValueMessage (r : request) (k : key) (v : value)
| killMessage (r : request).

Inductive reply :=
| ContextReply (c : option ctx)
| ValueReply (v : value)
| ErrorReply (e : option error).

(** One iteration of the [select] that received [m]. *)
Definition serve (baseCtx : ctx) (st : store) (m : message) : outcome reply :=
  match m with
  | fetchCtxMessage r => map_outcome ContextReply (on_fetchCtx baseCtx st r)
  | setCtxMessage r c => map_outcome ErrorReply (on_setCtx st r c)
  | fetchValueMessage r k => map_outcome ValueReply (on_fetch st r k)
  | setValueMessage r k v => map_outcome ValueReply (on_set baseCtx st r k v)
  | killMessage r => map_outcome ErrorReply (on_kill st r)
  end.

(** What the [select] of one worker receives, in order. *)
Inductive event :=
| Halt
| Recv (m : message).

(** Where the worker is once the events are used up: back at the [select],
    past the loop with [stopped <- true] sent, or blocked inside a case. *)
Inductive status :=
| Selecting
| Stopped
| Stuck.

(** [worker]: the loop, run on the events it receives while no other goroutine
    touches the store.  The result is the store, the replies sent so far (in
    order) and the status. *)
Fixpoint worker (baseCtx : ctx) (st : store) (events : list event)
    : store * list reply * status :=
  match events with
  | [] => (st, [], Selecting)
  | Halt :: _ => (st, [], Stopped)
  | Recv m :: events =>
      match serve baseCtx st m with
      | Replied st a =>
          let '(st, replies, s) := worker baseCtx st events in
          (st, a :: replies, s)
      | Blocked st _ => (st, [], Stuck)
      end
  end.

(** ** Start, Stop and the goroutines *)

Record Options := mkOptions {
  BufferSize : Z;
  NumWorkers : Z;
  Context : option ctx;
}.

Definition NewOptions (ctx0 : option ctx) (numWorkers bufferSize : Z) : Options :=
  {| BufferSize := bufferSize; NumWorkers := numWorkers; Context := ctx0 |}.

Definition SaneDefaults (o : Options) : Options :=
  {| BufferSize := if (BufferSize o <=? 0)%Z then 1%Z else BufferSize o;
     NumWorkers := if (NumWorkers o <=? 0)%Z then 1%Z else NumWorkers o;
     Context := match Context o with
                | None => Some Background
                | Some c => Some c
                end |}.

(** Where a worker goroutine is: about to evaluate the [select] of its loop;
    inside [case <-kill], waiting on [<-ctx.Done()] for the chain [c] of
    request [r]; past the loop, about to send on [stopped]; or returned. *)
Inductive worker_pc :=
| AtSelect
| InEvict (r : request) (c : ctx)
| AtStopped
| Exited.

(** The goroutine that [startBackdrop] starts last: waiting on
    [<-ctx.Done()], or in its loop, about to send on [workerChannels[i]]
    (past the loop once [i] is their number). *)
Inductive supervisor_pc :=
| AwaitingDone
| Halting (i : nat).

(** The caller of [Stop] (one call is followed): not there yet, in the loop
    with [i] iterations done, or returned. *)
Inductive stop_pc :=
| NotCalled
| Reading (i : nat)
| Returned.

(** The package variables and its goroutines.  [mailbox] holds the messages
    that were sent and not yet received, oldest first, each with whether it
    was sent before [Stop] cancelled the root scope; [sent] holds the replies;
    [received] counts the values [Stop] has taken from [stopped]. *)
Record system := System {
  rootCtx : ctx;
  done_ : cancel_id;
  bufferSize : nat;
  heap : store;
  pool : list worker_pc;
  supervisor : supervisor_pc;
  stopped : nat;
  stopper : stop_pc;
  received : nat;
  mailbox : list (message * bool);
  sent : list reply;
}.

(** The allocator starts above the cancellation nodes of the configured
    scope, which exist already. *)
Definition first_id (c : ctx) : cancel_id :=
  foldr (fun id n => Pos.max (Pos.succ id) n) 1%positive (cancel_nodes c).

(** [startBackdrop]: the channels and the map are empty, the root scope is
    derived from the configured one ([Background()] when that is nil), and
    every worker is about to enter its loop. *)
Definition startBackdrop (ctx0 : option ctx) (workers bufferSize : Z) : system :=
  let ctx0 := default Background ctx0 in
  let st0 := Store ∅ ∅ (first_id ctx0) in
  let '(ctx1, _, st) := WithCancel ctx0 st0 in
  {| rootCtx := ctx1;
     done_ := next_cancel st0;
     bufferSize := Z.to_nat bufferSize;
     heap := st;
     pool := replicate (Z.to_nat workers) AtSelect;
     supervisor := AwaitingDone;
     stopped := 0;
     stopper := NotCalled;
     received := 0;
     mailbox := [];
     sent := [] |}.

(** [Start]; [initOnce] makes every later call a no-op. *)
Definition Start (options : option Options) : system :=
  let options := SaneDefaults (default (NewOptions None 0 0) options) in
  startBackdrop (Context options) (NumWorkers options) (BufferSize options).

(** The root scope and the store of [Start(nil)]. *)
Definition baseCtx0 : ctx := rootCtx (Start None).
Definition store0 : store := heap (Start None).

Inductive channel :=
| fetchCtx
| setCtx
| fetch
| set_
| kill.

#[global] Instance channel_eq_dec : EqDecision channel.
Proof. solve_decision. Defined.

Definition channel_of (m : message) : channel :=
  match m with
  | fetchCtxMessage _ => fetchCtx
  | setCtxMessage _ _ => setCtx
  | fetchValueMessage _ _ => fetch
  | setValueMessage _ _ _ => set_
  | killMessage _ => kill
  end.

(** [message.Request] *)
Definition Request (m : message) : request :=
  match m with
  | fetchCtxMessage r | setCtxMessage r _ | fetchValueMessage r _
  | setValueMessage r _ _ | killMessage r => r
  end.

(** The number of messages buffered in a channel. *)
Fixpoint buffered (ch : channel) (q : list (message * bool)) : nat :=
  match q with
  | [] => 0
  | p :: q => (if decide (channel_of p.1 = ch) then 1 else 0) + buffered ch q
  end.

(** Receiving from a channel: its oldest message, and the mailbox without. *)
Fixpoint take (ch : channel) (q : list (message * bool))
    : option (message * list (message * bool)) :=
  match q with
  | [] => None
  | p :: q =>
      if decide (channel_of p.1 = ch) then Some (p.1, q)
      else match take ch q with
           | Some (m, q') => Some (m, p :: q')
           | None => None
           end
  end.

Definition not_called (p : stop_pc) : bool :=
  match p with
  | NotCalled => true
  | _ => false
  end.

Definition is_exited (p : worker_pc) : bool :=
  match p with
  | Exited => true
  | _ => false
  end.

(** The number of workers that have returned. *)
Fixpoint exited (pool : list worker_pc) : nat :=
  match pool with
  | [] => 0
  | p :: pool => (if is_exited p then 1 else 0) + exited pool
  end.

Definition with_heap (st : store) (s : system) : system :=
  System (rootCtx s) (done_ s) (bufferSize s) st (pool s) (supervisor s)
         (stopped s) (stopper s) (received s) (mailbox s) (sent s).

Definition with_pool (pool : list worker_pc) (s : system) : system :=
  System (rootCtx s) (done_ s) (bufferSize s) (heap s) pool (supervisor s)
         (stopped s) (stopper s) (received s) (mailbox s) (sent s).

Definition with_supervisor (p : supervisor_pc) (s : system) : system :=
  System (rootCtx s) (done_ s) (bufferSize s) (heap s) (pool s) p
         (stopped s) (stopper s) (received s) (mailbox s) (sent s).

Definition with_stop (stopped : nat) (p : stop_pc) (received : nat) (s : system)
    : system :=
  System (rootCtx s) (done_ s) (bufferSize s) (heap s) (pool s) (supervisor s)
         stopped p received (mailbox s) (sent s).

Definition with_mailbox (q : list (message * bool)) (s : system) : system :=
  System (rootCtx s) (done_ s) (bufferSize s) (heap s) (pool s) (supervisor s)
         (stopped s) (stopper s) (received s) q (sent s).

Definition with_sent (replies : list reply) (s : system) : system :=
  System (rootCtx s) (done_ s) (bufferSize s) (heap s) (pool s) (supervisor s)
         (stopped s) (stopper s) (received s) (mailbox s) replies.

(** The moves of the goroutines.  A [select] whose cases are ready takes any
    of them: [Halts i] and [Serves i ch] are both possible for a worker at its
    [select] when the supervisor is at its halt channel and [ch] holds a
    message. *)
Inductive action :=
| CallStop
| StopReceives
| StopReturns
| SupervisorWakes
| Halts (i : nat)
| Acknowledges (i : nat)
| Sends (m : message)
| Serves (i : nat) (ch : channel)
| Resumes (i : nat)
| Cancels (id : cancel_id).

Definition step (a : action) (s : system) : option system :=
  match a with
  | CallStop =>
      (* Stop: done(), and on to the loop *)
      match stopper s with
      | NotCalled =>
          Some (with_stop (stopped s) (Reading 0) (received s)
                  (with_heap (call_cancel (done_ s) (heap s)) s))
      | _ => None
      end
  | StopReceives =>
      (* Stop: for _ = range workerChannels { <-stopped } *)
      match stopper s, stopped s with
      | Reading i, S n =>
          if decide (i < length (pool s))
          then Some (with_stop n (Reading (S i)) (S (received s)) s)
          else None
      | _, _ => None
      end
  | StopReturns =>
      match stopper s with
      | Reading i =>
          if decide (i = length (pool s))
          then Some (with_stop (stopped s) Returned (received s) s)
          else None
      | _ => None
      end
  | SupervisorWakes =>
      (* <-ctx.Done() *)
      match supervisor s with
      | AwaitingDone =>
          if Done (fired (heap s)) (rootCtx s)
          then Some (with_supervisor (Halting 0) s)
          else None
      | Halting _ => None
      end
  | Halts i =>
      (* halt <- true, met by case <-halt: break Loop *)
      match supervisor s, pool s !! i with
      | Halting j, Some AtSelect =>
          if decide (i = j)
          then Some (with_supervisor (Halting (S j))
                       (with_pool (<[ i := AtStopped ]> (pool s)) s))
          else None
      | _, _ => None
      end
  | Acknowledges i =>
      (* stopped <- true; the channel has room for one value per worker *)
      match pool s !! i with
      | Some AtStopped =>
          if decide (stopped s < length (pool s))
          then Some (with_stop (S (stopped s)) (stopper s) (received s)
                       (with_pool (<[ i := Exited ]> (pool s)) s))
          else None
      | _ => None
      end
  | Sends m =>
      (* a caller's send, when the channel of m has room *)
      if decide (buffered (channel_of m) (mailbox s) < bufferSize s)
      then Some (with_mailbox (mailbox s ++ [(m, not_called (stopper s))]) s)
      else None
  | Serves i ch =>
      match pool s !! i, take ch (mailbox s) with
      | Some AtSelect, Some (m, q) =>
          match serve (rootCtx s) (heap s) m with
          | Replied st a =>
              Some (with_sent (sent s ++ [a]) (with_mailbox q (with_heap st s)))
          | Blocked st c =>
              Some (with_pool (<[ i := InEvict (Request m) c ]> (pool s))
                      (with_mailbox q (with_heap st s)))
          end
      | _, _ => None
      end
  | Resumes i =>
      (* <-ctx.Done() returns: delete(contexts, r); RespondTo <- nil *)
      match pool s !! i with
      | Some (InEvict r c) =>
          if Done (fired (heap s)) c
          then Some (with_sent (sent s ++ [ErrorReply None])
                       (with_pool (<[ i := AtSelect ]> (pool s))
                          (with_heap (set_contexts (delete r) (heap s)) s)))
          else None
      | _ => None
      end
  | Cancels id =>
      Some (with_heap (call_cancel id (heap s)) s)
  end.

(** A schedule, from a state; [None] when a move is not possible. *)
Fixpoint run (schedule : list action) (s : system) : option system :=
  match schedule with
  | [] => Some s
  | a :: schedule =>
      match step a s with
      | Some s => run schedule s
      | None => None
      end
  end.

(** ** Auxiliary notions *)

(** What [Get] makes of the value the worker sends back. *)
Definition answer (v : value) : value * option error :=
  if is_nil v then (VNil, Some ErrGettingFromBackdrop) else (v, None).

(** The chain [WithCancel(baseCtx)] returns in a store, and the store after. *)
Definition fresh_chain (baseCtx : ctx) (st : store) : ctx :=
  cancelCtx baseCtx (next_cancel st).

Definition bump (st : store) : store :=
  Store (contexts st) (fired st) (Pos.succ (next_cancel st)).

(** What [cancelKey] resolves to in the entry of [r]. *)
Definition handle_of (st : store) (r : request) : value :=
  match lookup_ctx st r with
  | Some c => Value c cancelKey
  | None => VNil
  end.

(** An entry owns its handle when [cancelKey] resolves to the cancel function
    of a cancellation node of the chain itself.  The chains the worker creates
    do, and they keep it under [Set] with any other key. *)
Definition owns_handle (c : ctx) : Prop :=
  ∃ id, Value c cancelKey = VCancelFunc id ∧ id ∈ cancel_nodes c.

(** A message leaves the binding of [k] in the entry of [r] alone when it is
    for another request, or reads, or sets another key. *)
Definition keeps (r : request) (k : key) (m : message) : bool :=
  match m with
  | fetchCtxMessage _ | fetchValueMessage _ _ => true
  | setValueMessage r' k' _ => bool_decide (r' ≠ r) || bool_decide (k' ≠ k)
  | setCtxMessage r' _ | killMessage r' => bool_decide (r' ≠ r)
  end.

(** The workers [Start] spawns. *)
Definition spawned (options : option Options) : nat :=
  Z.to_nat (NumWorkers (SaneDefaults (default (NewOptions None 0 0) options))).

(** What every state of a schedule satisfies, [s0] being where it starts:
    the values sent on [stopped] are those still buffered and those [Stop] has
    received, and only a worker that returns sends one. *)
Record stop_inv (s0 s : system) : Prop := StopInv {
  inv_pool : length (pool s) = length (pool s0);
  inv_root : rootCtx s = rootCtx s0;
  inv_done : done_ s = done_ s0;
  inv_acks : stopped s + received s = exited (pool s);
  inv_called : stopper s ≠ NotCalled → done_ s ∈ fired (heap s);
  inv_idle : stopper s = NotCalled → received s = 0;
  inv_reading : ∀ i, stopper s = Reading i → received s = i;
  inv_returned : stopper s = Returned → received s = length (pool s);
}.

(** The schedule of the counterexample: a caller sends a [Set] message, then
    [Stop] runs to its end with the one worker taking [halt] at its first
    [select]. *)
Definition early_set : message :=
  setValueMessage 7 (KString "user") (VString "alice").

Definition halt_first : list action :=
  [Sends early_set; CallStop; SupervisorWakes; Halts 0; Acknowledges 0;
   StopReceives; StopReturns].

(** A schedule with two workers: the message is served before [Stop], and
    both workers are halted. *)
Definition serve_then_stop : list action :=
  [Sends early_set; Serves 1 set_; CallStop; SupervisorWakes;
   Halts 0; Halts 1; Acknowledges 1; StopReceives; Acknowledges 0;
   StopReceives; StopReturns].

(** A message leaves the chain stored for [r] alone when it is for another
    request, or is a [Get] or a [GetContext]. *)
Definition leaves (r : request) (m : message) : bool :=
  match m with
  | fetchCtxMessage _ | fetchValueMessage _ _ => true
  | setValueMessage r' _ _ | setCtxMessage r' _ | killMessage r' =>
      bool_decide (r' ≠ r)
  end.

(** A message that is neither a [Set] nor an [Evict] of [r]. *)
Definition no_Set_no_Evict (r : request) (m : message) : bool :=
  match m with
  | setValueMessage r' _ _ | killMessage r' => bool_decide (r' ≠ r)
  | fetchCtxMessage _ | fetchValueMessage _ _ | setCtxMessage _ _ => true
  end.

(** ** The handler wrapper *)

(** What a wrapped [http.Handler] does with the package: calls of the public
    functions, each next step chosen from what the call returned, up to a
    result [a] that stands for what the handler leaves in the variables it
    captures and in its [ResponseWriter]. *)
Inductive handler (A : Type) :=
| Return (a : A)
| DoGet (r : request) (k : key) (next : value * option error → handler A)
| DoSet (r : request) (k : key) (v : value) (next : option error → handler A)
| DoGetContext (r : request) (next : option ctx → handler A)
| DoSetContext (r : request) (c : option ctx) (next : option error → handler A)
| DoEvict (r : request) (next : option error → handler A).
Arguments Return {A} a.
Arguments DoGet {A} r k next.
Arguments DoSet {A} r k v next.
Arguments DoGetContext {A} r next.
Arguments DoSetContext {A} r c next.
Arguments DoEvict {A} r next.

Fixpoint run_handler {A} (baseCtx : ctx) (hd : handler A) (st : store) : outcome A :=
  match hd with
  | Return a => Replied st a
  | DoGet r k next =>
      bind (Get st r k) (fun st a => run_handler baseCtx (next a) st)
  | DoSet r k v next =>
      bind (Set_ baseCtx st r k v) (fun st a => run_handler baseCtx (next a) st)
  | DoGetContext r next =>
      bind (GetContext baseCtx st r) (fun st a => run_handler baseCtx (next a) st)
  | DoSetContext r c next =>
      bind (SetContext st r c) (fun st a => run_handler baseCtx (next a) st)
  | DoEvict r next =>
      bind (Evict st r) (fun st a => run_handler baseCtx (next a) st)
  end.

(** [ClearContextHandler]: the wrapped handler, given its request. *)
Record ClearContextHandler (A : Type) := {
  h : request → handler A;
}.
Arguments h {A} _ _.

Definition NewClearContextHandler {A} (h : request → handler A)
    : ClearContextHandler A :=
  {| h := h |}.

(** [ServeHTTP]: the wrapped handler runs, then [Evict(r)], whose error is
    dropped. *)
Definition ServeHTTP {A} (baseCtx : ctx) (hw : ClearContextHandler A)
    (st : store) (r : request) : outcome A :=
  bind (run_handler baseCtx (h hw r) st) (fun st a =>
  bind (Evict st r) (fun st _ => Replied st a)).

(** [v, ok := x.(string); ok && v == s] *)
Definition is_string (s : string) (x : value) : bool :=
  match x with
  | VString s' => bool_decide (s' = s)
  | _ => false
  end.

Definition no_error (e : option error) : bool :=
  match e with
  | None => true
  | Some _ => false
  end.

(** The handler of [TestClearContextHandler]; its result is whether it ran to
    its end ([ranHandler]) without a call of [t.Error]. *)
Definition test_handler (r : request) : handler bool :=
  DoSet r (KString "test") (VString "testing") (fun err1 =>
  DoGetContext r (fun ctx =>
  let ok2 := match ctx with
             | Some c => is_string "testing" (Value c (KString "test"))
             | None => false
             end in
  DoSetContext r ctx (fun err3 =>
  DoGet r (KString "test") (fun '(v, err4) =>
  Return (no_error err1 && ok2 && no_error err3 && no_error err4
          && is_string "testing" v))))).

(** [TestClearContextHandler]: the wrapped handler is served, then [Get] must
    fail.  The result is whether the test passes. *)
Definition TestClearContextHandler (baseCtx : ctx) (st : store) (r : request)
    : outcome bool :=
  bind (ServeHTTP baseCtx (NewClearContextHandler test_handler) st r) (fun st ran =>
  bind (Get st r (KString "test")) (fun st '(_, err) =>
  Replied st (ran && negb (no_error err)))).

(** ** Disciplines of use *)

(** The decidable form of [owns_handle]. *)
Definition owns_handleb (c : ctx) : bool :=
  match Value c cancelKey with
  | VCancelFunc id => bool_decide (id ∈ cancel_nodes c)
  | _ => false
  end.

(** Every stored chain owns its handle. *)
Definition handles_owned (st : store) : Prop :=
  ∀ r c, lookup_ctx st r = Some c → owns_handle c.

(** A message is tame when it does not bind the key 1 and installs no chain
    that lacks its own handle. *)
Definition tame (m : message) : bool :=
  match m with
  | fetchCtxMessage _ | fetchValueMessage _ _ | killMessage _ => true
  | setValueMessage _ k _ => bool_decide (k ≠ cancelKey)
  | setCtxMessage _ None => true
  | setCtxMessage _ (Some c) => owns_handleb c
  end.

(** Whether the calls a handler makes from a store are all tame. *)
Fixpoint tame_run {A} (baseCtx : ctx) (hd : handler A) (st : store) : bool :=
  match hd with
  | Return _ => true
  | DoGet r k next =>
      match Get st r k with
      | Replied st a => tame_run baseCtx (next a) st
      | Blocked _ _ => true
      end
  | DoSet r k v next =>
      tame (setValueMessage r k v) &&
      match Set_ baseCtx st r k v with
      | Replied st a => tame_run baseCtx (next a) st
      | Blocked _ _ => true
      end
  | DoGetContext r next =>
      match GetContext baseCtx st r with
      | Replied st a => tame_run baseCtx (next a) st
      | Blocked _ _ => true
      end
  | DoSetContext r c next =>
      tame (setCtxMessage r c) &&
      match SetContext st r c with
      | Replied st a => tame_run baseCtx (next a) st
      | Blocked _ _ => true
      end
  | DoEvict r next =>
      match Evict st r with
      | Replied st a => tame_run baseCtx (next a) st
      | Blocked _ _ => true
      end
  end.

(** A message is plain when it is tame and not a [SetContext]. *)
Definition plain (m : message) : bool :=
  match m with
  | setCtxMessage _ _ => false
  | _ => tame m
  end.

(** The store is managed when every stored chain is what the worker made of
    it: one cancellation node of its own directly below [baseCtx], allocated
    by the store and shared with no other entry, and its cancel function under
    [cancelKey]. *)
Record managed (baseCtx : ctx) (st : store) : Prop := Managed {
  managed_base : ∀ id, id ∈ cancel_nodes baseCtx → (id < next_cancel st)%positive;
  managed_entry : ∀ r c, lookup_ctx st r = Some c →
    ∃ id, cancel_nodes c = id :: cancel_nodes baseCtx
      ∧ Value c cancelKey = VCancelFunc id
      ∧ (id < next_cancel st)%positive
      ∧ id ∉ cancel_nodes baseCtx;
  managed_distinct : ∀ r r' c c',
    lookup_ctx st r = Some c → lookup_ctx st r' = Some c' →
    head (cancel_nodes c) = head (cancel_nodes c') → r = r';
}.

(** ** The halted workers *)

(** A worker that has left its loop. *)
Definition halted (p : worker_pc) : bool :=
  match p with
  | AtStopped | Exited => true
  | AtSelect | InEvict _ _ => false
  end.

(** The halt signals the supervisor has delivered. *)
Definition halts_sent (p : supervisor_pc) : nat :=
  match p with
  | AwaitingDone => 0
  | Halting j => j
  end.

(** The workers that have left their loops are those the supervisor has
    halted, and it halts only once the root scope is cancelled. *)
Record halt_inv (s : system) : Prop := HaltInv {
  halt_pool : ∀ i p, pool s !! i = Some p →
    halted p = bool_decide (i < halts_sent (supervisor s));
  halt_done : supervisor s ≠ AwaitingDone →
    Done (fired (heap s)) (rootCtx s) = true;
}.

(** ** Scripts *)

(** One [Set] message on [r] for each pair. *)
Definition set_messages (r : request) (kvs : list (key * value)) : list message :=
  (fun kv => setValueMessage r kv.1 kv.2) <$> kvs.

(** [Stop] with [n] idle workers, every goroutine moving as soon as it can:
    the call, the supervisor's halts, the acknowledgments, the receptions. *)
Definition stop_schedule (n : nat) : list action :=
  [CallStop; SupervisorWakes]
  ++ (Halts <$> seq 0 n)
  ++ (Acknowledges <$> seq 0 n)
  ++ replicate n StopReceives
  ++ [StopReturns].

(** ** Properties of chains *)

Lemma Value_WithValue_eq c k v : Value (WithValue c k v) k = v.
Proof. simpl. by rewrite decide_True. Qed.

Lemma Value_WithValue_ne c k k' v : k ≠ k' → Value (WithValue c k v) k' = Value c k'.
Proof. intros Hne. simpl. by rewrite decide_False. Qed.

Lemma Done_cancel_node F c id :
  id ∈ cancel_nodes c → id ∈ F → Done F c = true.
Proof.
  induction c as [| parent IH id' | parent IH k v]; simpl; intros Hin HF.
  - by apply elem_of_nil in Hin.
  - apply elem_of_cons in Hin as [-> | Hin].
    + by rewrite bool_decide_eq_true_2.
    + rewrite IH; [apply orb_true_r | done..].
  - by apply IH.
Qed.

Lemma Done_mono F G c : F ⊆ G → Done F c = true → Done G c = true.
Proof.
  intros Hsub. induction c as [| parent IH id | parent IH k v]; simpl; try done.
  rewrite !orb_true_iff, !bool_decide_eq_true.
  intros [Hid | Hparent]; [left; by apply Hsub | right; by apply IH].
Qed.

Lemma owns_handle_fresh parent id :
  owns_handle (WithValue (cancelCtx parent id) cancelKey (VCancelFunc id)).
Proof. exists id. split; [apply Value_WithValue_eq | simpl; apply list_elem_of_here]. Qed.

Lemma owns_handle_fresh_set parent id k v :
  owns_handle
    (WithValue (WithValue (cancelCtx parent id) k v) cancelKey (VCancelFunc id)).
Proof. exists id. split; [apply Value_WithValue_eq | simpl; apply list_elem_of_here]. Qed.

Lemma owns_handle_WithValue c k v :
  k ≠ cancelKey → owns_handle c → owns_handle (WithValue c k v).
Proof.
  intros Hk (id & Hv & Hin). exists id. split; [| done].
  by rewrite Value_WithValue_ne.
Qed.

(** ** Properties of the cases *)

Lemma lookup_ctx_Some st r c :
  lookup_ctx st r = Some c ↔ contexts st !! r = Some (Some c).
Proof.
  unfold lookup_ctx. destruct (contexts st !! r) as [[c' |] |]; naive_solver.
Qed.

Lemma lookup_ctx_None st r :
  lookup_ctx st r = None ↔ contexts st !! r = None ∨ contexts st !! r = Some None.
Proof.
  unfold lookup_ctx. destruct (contexts st !! r) as [[c' |] |].
  - split; [done | by intros [? | ?]].
  - split; [by right | done].
  - split; [by left | done].
Qed.

Lemma lookup_ctx_insert st r oc :
  lookup_ctx (set_contexts <[ r := oc ]> st) r = oc.
Proof. unfold lookup_ctx. simpl. rewrite lookup_insert_eq. by destruct oc. Qed.

Lemma lookup_ctx_insert_ne st r r' oc :
  r ≠ r' → lookup_ctx (set_contexts <[ r := oc ]> st) r' = lookup_ctx st r'.
Proof. intros Hne. unfold lookup_ctx. simpl. by rewrite lookup_insert_ne. Qed.

Lemma lookup_ctx_delete st r :
  lookup_ctx (set_contexts (delete r) st) r = None.
Proof. unfold lookup_ctx. simpl. by rewrite lookup_delete_eq. Qed.

Lemma lookup_ctx_delete_ne st r r' :
  r ≠ r' → lookup_ctx (set_contexts (delete r) st) r' = lookup_ctx st r'.
Proof. intros Hne. unfold lookup_ctx. simpl. by rewrite lookup_delete_ne. Qed.

Lemma Get_answer st r k c :
  lookup_ctx st r = Some c → Get st r k = Replied st (answer (Value c k)).
Proof.
  intros Hc. unfold Get, on_fetch, answer. rewrite Hc. simpl.
  by destruct (is_nil (Value c k)).
Qed.

Lemma Get_found st r k c :
  lookup_ctx st r = Some c → Value c k ≠ VNil →
  Get st r k = Replied st (Value c k, None).
Proof.
  intros Hc Hv. rewrite (Get_answer _ _ _ c Hc). unfold answer.
  by destruct (Value c k).
Qed.

Lemma Get_nil st r k c :
  lookup_ctx st r = Some c → Value c k = VNil →
  Get st r k = Replied st (VNil, Some ErrGettingFromBackdrop).
Proof. intros Hc Hv. rewrite (Get_answer _ _ _ c Hc). by rewrite Hv. Qed.

Lemma Get_no_entry st r k :
  lookup_ctx st r = None →
  Get st r k = Replied st (VNil, Some ErrGettingFromBackdrop).
Proof. intros Hc. unfold Get, on_fetch. by rewrite Hc. Qed.

Lemma on_set_present baseCtx st r k v c :
  lookup_ctx st r = Some c →
  on_set baseCtx st r k v =
    Replied (set_contexts <[ r := Some (WithValue c k v) ]> st)
            (VContext (WithValue c k v)).
Proof. intros Hc. unfold on_set. by rewrite Hc. Qed.

Lemma on_set_absent baseCtx st r k v :
  lookup_ctx st r = None →
  let c := WithValue (WithValue (fresh_chain baseCtx st) k v)
                     cancelKey (VCancelFunc (next_cancel st)) in
  on_set baseCtx st r k v =
    Replied (set_contexts <[ r := Some c ]> (bump st)) (VContext c).
Proof. intros Hc. unfold on_set. by rewrite Hc. Qed.

Lemma on_fetchCtx_absent baseCtx st r :
  lookup_ctx st r = None →
  let c := WithValue (fresh_chain baseCtx st) cancelKey (VCancelFunc (next_cancel st)) in
  on_fetchCtx baseCtx st r =
    Replied (set_contexts <[ r := Some c ]> (bump st)) (Some c).
Proof. intros Hc. unfold on_fetchCtx. by rewrite Hc. Qed.

Lemma Set_present baseCtx st r k v c :
  lookup_ctx st r = Some c →
  Set_ baseCtx st r k v =
    Replied (set_contexts <[ r := Some (WithValue c k v) ]> st) None.
Proof. intros Hc. unfold Set_. by rewrite (on_set_present _ _ _ _ _ c). Qed.

Lemma Set_absent baseCtx st r k v :
  lookup_ctx st r = None →
  Set_ baseCtx st r k v =
    Replied (set_contexts
               <[ r := Some (WithValue (WithValue (fresh_chain baseCtx st) k v)
                                       cancelKey (VCancelFunc (next_cancel st))) ]>
               (bump st)) None.
Proof. intros Hc. unfold Set_. by rewrite on_set_absent. Qed.

(** After [Set], the entry is there and resolves [k] to [v], unless [k] is
    [cancelKey] and the entry had to be created. *)
Lemma Set_installs baseCtx st r k v :
  k ≠ cancelKey ∨ is_Some (lookup_ctx st r) →
  ∃ st1 c1, Set_ baseCtx st r k v = Replied st1 None
    ∧ lookup_ctx st1 r = Some c1 ∧ Value c1 k = v.
Proof.
  intros Hk. destruct (lookup_ctx st r) as [c |] eqn:Hc.
  - eexists _, _. split; [by apply Set_present |].
    split; [apply lookup_ctx_insert | apply Value_WithValue_eq].
  - destruct Hk as [Hk | [? ?]]; [| done].
    eexists _, _. split; [by apply Set_absent |].
    split; [apply lookup_ctx_insert |].
    rewrite Value_WithValue_ne by done. apply Value_WithValue_eq.
Qed.

(** A second [Set] always finds the entry the first one left. *)
Lemma Set_leaves_entry baseCtx st r k v :
  ∃ st1 c1, Set_ baseCtx st r k v = Replied st1 None ∧ lookup_ctx st1 r = Some c1.
Proof.
  destruct (lookup_ctx st r) as [c |] eqn:Hc.
  - eexists _, _. split; [by apply Set_present | apply lookup_ctx_insert].
  - eexists _, _. split; [by apply Set_absent | apply lookup_ctx_insert].
Qed.

(** What [Evict] does on an entry that owns its handle. *)
Lemma on_kill_owned st r c id :
  lookup_ctx st r = Some c →
  Value c cancelKey = VCancelFunc id →
  id ∈ cancel_nodes c →
  on_kill st r = Replied (set_contexts (delete r) (call_cancel id st)) None.
Proof.
  intros Hc Hv Hin. apply lookup_ctx_Some in Hc.
  unfold on_kill. rewrite Hc, Hv.
  rewrite (Done_cancel_node _ c id); [done | done |].
  simpl. set_solver.
Qed.

(** Only [case <-kill] calls a cancel function, and no case takes one back. *)
Lemma serve_fired baseCtx st m : fired st ⊆ fired (store_of (serve baseCtx st m)).
Proof.
  destruct m as [r | r oc | r k | r k v | r]; simpl.
  - unfold on_fetchCtx. by destruct (lookup_ctx st r).
  - unfold on_setCtx. by destruct (contexts st !! r).
  - unfold on_fetch. by destruct (lookup_ctx st r).
  - unfold on_set. by destruct (lookup_ctx st r).
  - unfold on_kill. destruct (contexts st !! r) as [[c |] |]; try done.
    destruct (Value c cancelKey); try done.
    destruct (Done _ c); simpl; set_solver.
Qed.

(** *** Messages that leave a binding alone *)

Lemma serve_keeps baseCtx st m r k c st' a :
  keeps r k m = true →
  lookup_ctx st r = Some c →
  serve baseCtx st m = Replied st' a →
  ∃ c', lookup_ctx st' r = Some c' ∧ Value c' k = Value c k.
Proof.
  intros Hkeep Hc Hserve. destruct m as [r' | r' oc | r' k' | r' k' v | r']; simpl in *.
  - (* fetchCtx *)
    unfold on_fetchCtx in Hserve. destruct (lookup_ctx st r') as [c0 |] eqn:Hr'.
    + simplify_eq/=. eauto.
    + simplify_eq/=. exists c. split; [| done].
      rewrite lookup_ctx_insert_ne; [done |]. intros ->. congruence.
  - (* setCtx *)
    apply bool_decide_eq_true in Hkeep.
    unfold on_setCtx in Hserve. destruct (contexts st !! r'); simplify_eq/=.
    + exists c. by rewrite lookup_ctx_insert_ne.
    + eauto.
  - (* fetch *)
    unfold on_fetch in Hserve. destruct (lookup_ctx st r'); simplify_eq/=; eauto.
  - (* set *)
    unfold on_set in Hserve. destruct (decide (r' = r)) as [-> | Hne].
    + rewrite Hc in Hserve. simplify_eq/=.
      rewrite orb_true_iff, !bool_decide_eq_true in Hkeep.
      destruct Hkeep as [? | Hk]; [done |].
      eexists. split; [apply lookup_ctx_insert |]. by rewrite Value_WithValue_ne.
    + destruct (lookup_ctx st r'); simplify_eq/=;
        exists c; by rewrite lookup_ctx_insert_ne.
  - (* kill *)
    apply bool_decide_eq_true in Hkeep.
    unfold on_kill in Hserve.
    destruct (contexts st !! r') as [[c0 |] |]; simplify_eq/=; eauto.
    destruct (Value c0 cancelKey); simplify_eq/=; eauto.
    destruct (Done _ c0); simplify_eq/=.
    exists c. split; [| done]. rewrite lookup_ctx_delete_ne; [| done].
    by unfold lookup_ctx in *.
Qed.

Lemma worker_keeps baseCtx ms : ∀ st r k c st' replies,
  forallb (keeps r k) ms = true →
  lookup_ctx st r = Some c →
  worker baseCtx st (Recv <$> ms) = (st', replies, Selecting) →
  ∃ c', lookup_ctx st' r = Some c' ∧ Value c' k = Value c k.
Proof.
  induction ms as [| m ms IH]; intros st r k c st' replies Hall Hc Hrun; csimpl in *.
  - simplify_eq. eauto.
  - apply andb_true_iff in Hall as [Hm Hms].
    destruct (serve baseCtx st m) as [st1 a | st1] eqn:Hserve; [| done].
    destruct (worker baseCtx st1 (Recv <$> ms)) as [[st2 replies2] s2] eqn:Hrest.
    simplify_eq.
    destruct (serve_keeps _ _ _ _ _ _ _ _ Hm Hc Hserve) as (c1 & Hc1 & Hv1).
    destruct (IH _ _ _ _ _ _ Hms Hc1 Hrest) as (c2 & Hc2 & Hv2).
    exists c2. split; [done | congruence].
Qed.

(** *** Messages that leave a chain alone *)

Lemma serve_leaves baseCtx st m r c st' a :
  leaves r m = true →
  lookup_ctx st r = Some c →
  serve baseCtx st m = Replied st' a →
  lookup_ctx st' r = Some c.
Proof.
  intros Hleaves Hc Hserve.
  destruct m as [r' | r' oc | r' k' | r' k' v | r']; simpl in *.
  - (* fetchCtx *)
    unfold on_fetchCtx in Hserve. destruct (lookup_ctx st r') as [c0 |] eqn:Hr'.
    + by simplify_eq/=.
    + simplify_eq/=. rewrite lookup_ctx_insert_ne; [done |]. intros ->. congruence.
  - (* setCtx *)
    apply bool_decide_eq_true in Hleaves.
    unfold on_setCtx in Hserve. destruct (contexts st !! r'); simplify_eq/=.
    + by rewrite lookup_ctx_insert_ne.
    + done.
  - (* fetch *)
    unfold on_fetch in Hserve. by destruct (lookup_ctx st r'); simplify_eq/=.
  - (* set *)
    apply bool_decide_eq_true in Hleaves.
    unfold on_set in Hserve.
    destruct (lookup_ctx st r'); simplify_eq/=; by rewrite lookup_ctx_insert_ne.
  - (* kill *)
    apply bool_decide_eq_true in Hleaves.
    unfold on_kill in Hserve.
    destruct (contexts st !! r') as [[c0 |] |]; simplify_eq/=; try done.
    destruct (Value c0 cancelKey); simplify_eq/=; try done.
    destruct (Done _ c0); simplify_eq/=.
    rewrite lookup_ctx_delete_ne; [| done]. by unfold lookup_ctx in *.
Qed.

Lemma worker_leaves baseCtx ms : ∀ st r c st' replies,
  forallb (leaves r) ms = true →
  lookup_ctx st r = Some c →
  worker baseCtx st (Recv <$> ms) = (st', replies, Selecting) →
  lookup_ctx st' r = Some c.
Proof.
  induction ms as [| m ms IH]; intros st r c st' replies Hall Hc Hrun; csimpl in *.
  - by simplify_eq.
  - apply andb_true_iff in Hall as [Hm Hms].
    destruct (serve baseCtx st m) as [st1 a | st1] eqn:Hserve; [| done].
    destruct (worker baseCtx st1 (Recv <$> ms)) as [[st2 replies2] s2] eqn:Hrest.
    simplify_eq.
    apply (IH st1 r c st' replies2 Hms); [| done].
    by apply (serve_leaves baseCtx st m r c st1 a).
Qed.

(** ** The store operations *)

(** C1, as stated, fails: on a request without an entry, [Set(r, 1, "x")]
    succeeds, and [Get(r, 1)] then returns the cancel function that the worker
    stored on top of the caller's binding, not ["x"]. *)
Lemma fresh_Set_cancelKey_shadowed :
  ¬ (∀ baseCtx st r k v st1,
       Set_ baseCtx st r k v = Replied st1 None →
       Get st1 r k = Replied st1 (v, None)).
Proof.
  intros H.
  specialize (H baseCtx0 store0 1%positive cancelKey (VString "x") _ eq_refl).
  vm_compute in H. discriminate H.
Qed.

(** C1 (amended): when [k] is not [cancelKey], or the request already has an
    entry, [Set(r, k, v)] succeeds and, after any messages that are neither a
    [Set] of [k] on [r] nor an [Evict] or [SetContext] of [r], [Get(r, k)]
    answers [v] (with the error when [v] is nil).  And for every [k], after
    [Set(r, k, v1)] and [Set(r, k, v2)], [Get(r, k)] answers [v2]. *)
Theorem Set_then_Get baseCtx st r k :
  (∀ v ms,
     k ≠ cancelKey ∨ is_Some (lookup_ctx st r) →
     forallb (keeps r k) ms = true →
     ∃ st1, Set_ baseCtx st r k v = Replied st1 None
       ∧ ∀ st2 replies,
           worker baseCtx st1 (Recv <$> ms) = (st2, replies, Selecting) →
           Get st2 r k = Replied st2 (answer v))
  ∧ (∀ v1 v2 ms,
       forallb (keeps r k) ms = true →
       ∃ st1 st2, Set_ baseCtx st r k v1 = Replied st1 None
         ∧ Set_ baseCtx st1 r k v2 = Replied st2 None
         ∧ ∀ st3 replies,
             worker baseCtx st2 (Recv <$> ms) = (st3, replies, Selecting) →
             Get st3 r k = Replied st3 (answer v2)).
Proof.
  split.
  - intros v ms Hk Hms.
    destruct (Set_installs baseCtx st r k v Hk) as (st1 & c1 & Hset & Hc1 & Hv1).
    exists st1. split; [done |]. intros st2 replies Hrun.
    destruct (worker_keeps _ _ _ _ _ _ _ _ Hms Hc1 Hrun) as (c2 & Hc2 & Hv2).
    rewrite (Get_answer _ _ _ _ Hc2). congruence.
  - intros v1 v2 ms Hms.
    destruct (Set_leaves_entry baseCtx st r k v1) as (st1 & c1 & Hset1 & Hc1).
    destruct (Set_installs baseCtx st1 r k v2) as (st2 & c2 & Hset2 & Hc2 & Hv2).
    { right. by rewrite Hc1. }
    exists st1, st2. split; [done |]. split; [done |]. intros st3 replies Hrun.
    destruct (worker_keeps _ _ _ _ _ _ _ _ Hms Hc2 Hrun) as (c3 & Hc3 & Hv3).
    rewrite (Get_answer _ _ _ _ Hc3). congruence.
Qed.

(** The scenario of the package test, with a [GetContext], a [Set] of another
    key and an [Evict] of another request in between. *)
Lemma Set_then_Get_witness :
  ∃ st1, Set_ baseCtx0 store0 7 (KString "test") (VString "testing")
         = Replied st1 None
    ∧ ∀ st2 replies,
        worker baseCtx0 st1
          (Recv <$> [fetchCtxMessage 7;
                     setValueMessage 7 (KInt 1) (VString "x");
                     killMessage 8])
        = (st2, replies, Selecting) →
        Get st2 7 (KString "test") = Replied st2 (VString "testing", None).
Proof.
  apply (proj1 (Set_then_Get baseCtx0 store0 7 (KString "test"))
           (VString "testing")).
  - left. discriminate.
  - reflexivity.
Defined.

(** C2, as stated, fails in its last part: on a request without an entry,
    [Set(r, 1, nil)] succeeds, and [Get(r, 1)] then succeeds too, with the
    cancel function stored on top of the nil binding. *)
Lemma fresh_Set_nil_cancelKey_found :
  ¬ (∀ baseCtx st r k st1,
       Set_ baseCtx st r k VNil = Replied st1 None →
       Get st1 r k = Replied st1 (VNil, Some ErrGettingFromBackdrop)).
Proof.
  intros H.
  specialize (H baseCtx0 store0 1%positive cancelKey _ eq_refl).
  vm_compute in H. discriminate H.
Qed.

(** C2 (amended): [Get(r, k)] always answers, never changes the store, and
    fails with [ErrGettingFromBackdrop] exactly when the guarded lookup finds
    no chain for [r] (no entry, or a nil chain) or the chain resolves [k] to
    nil; otherwise it returns the resolved value.  A request that is not in the
    map gets the error.  After [Set(r, k, nil)], [Get(r, k)] fails, when [k] is
    not [cancelKey] or the request already had an entry. *)
Theorem Get_NotFound_iff st r k :
  ∃ v e, Get st r k = Replied st (v, e)
    ∧ (e = Some ErrGettingFromBackdrop ↔
         lookup_ctx st r = None ∨ ∃ c, lookup_ctx st r = Some c ∧ Value c k = VNil)
    ∧ (e = Some ErrGettingFromBackdrop → v = VNil)
    ∧ (e ≠ Some ErrGettingFromBackdrop →
         e = None ∧ ∃ c, lookup_ctx st r = Some c ∧ v = Value c k)
    ∧ (contexts st !! r = None → e = Some ErrGettingFromBackdrop)
    ∧ (∀ baseCtx,
         k ≠ cancelKey ∨ is_Some (lookup_ctx st r) →
         ∃ st1, Set_ baseCtx st r k VNil = Replied st1 None
           ∧ Get st1 r k = Replied st1 (VNil, Some ErrGettingFromBackdrop)).
Proof.
  assert (Hset : ∀ baseCtx,
    k ≠ cancelKey ∨ is_Some (lookup_ctx st r) →
    ∃ st1, Set_ baseCtx st r k VNil = Replied st1 None
      ∧ Get st1 r k = Replied st1 (VNil, Some ErrGettingFromBackdrop)).
  { intros baseCtx Hk.
    destruct (Set_installs baseCtx st r k VNil Hk) as (st1 & c1 & Hs & Hc1 & Hv1).
    exists st1. split; [done |]. by apply (Get_nil _ _ _ c1). }
  destruct (lookup_ctx st r) as [c |] eqn:Hc.
  - destruct (Value c k) as [| n | s | id | c'] eqn:Hv.
    2-5: exists (Value c k), None.
    2-5: split; [apply Get_found; congruence |].
    2-5: rewrite Hv.
    2-5: split; [split; [done | intros [? | (c0 & ? & ?)]; congruence] |].
    2-5: split; [done |].
    2-5: split; [intros _; split; [done | by exists c] |].
    2-5: split; [| exact Hset].
    2-5: intros Hnone; apply lookup_ctx_Some in Hc; congruence.
    exists VNil, (Some ErrGettingFromBackdrop).
    split; [by apply (Get_nil _ _ _ c) |].
    split; [split; [intros _; right; eauto | done] |].
    split; [done |]. split; [done |]. split; [done | exact Hset].
  - exists VNil, (Some ErrGettingFromBackdrop).
    split; [by apply Get_no_entry |].
    split; [split; [by left | done] |].
    split; [done |]. split; [done |]. split; [done | exact Hset].
Qed.

Lemma Get_NotFound_iff_witness :
  ∃ st1, Set_ baseCtx0 store0 7 (KString "test") VNil = Replied st1 None
    ∧ Get st1 7 (KString "test") = Replied st1 (VNil, Some ErrGettingFromBackdrop).
Proof.
  destruct (Get_NotFound_iff store0 7 (KString "test"))
    as (v & e & _ & _ & _ & _ & _ & Hset).
  apply (Hset baseCtx0). left. discriminate.
Defined.

(** C3, as stated, fails: after [GetContext(r)] the request has an entry;
    [Set(r, 1, "y")] hides its cancel function, so [Evict(r)] fires nothing and
    removes nothing, and [Get(r, 1)] still returns ["y"]. *)
Lemma Evict_keeps_shadowed_entry :
  ¬ (∀ st r,
       is_Some (lookup_ctx st r) →
       ∃ st1, Evict st r = Replied st1 None
         ∧ contexts st1 !! r = None
         ∧ ∀ k, Get st1 r k = Replied st1 (VNil, Some ErrGettingFromBackdrop)).
Proof.
  intros H.
  pose (st1 := store_of (GetContext baseCtx0 store0 1)).
  pose (st2 := store_of (Set_ baseCtx0 st1 1 (KInt 1) (VString "y"))).
  destruct (H st2 1%positive) as (st3 & Hev & Hgone & _).
  - vm_compute. eauto.
  - vm_compute in Hev. injection Hev as <-. vm_compute in Hgone. discriminate Hgone.
Qed.

(** C3 (amended): for every request whose entry owns its handle (as every
    entry created by [GetContext] or [Set] does, until [cancelKey] is set
    again or the chain is replaced), [Evict(r)] succeeds, has called the
    entry's cancel function, which closes the entry's [Done] channel, has
    removed the entry and nothing else, and [Get(r, k)] fails for every [k]. *)
Theorem Evict_removes_entry st r c :
  lookup_ctx st r = Some c →
  owns_handle c →
  ∃ id st1, Value c cancelKey = VCancelFunc id
    ∧ Evict st r = Replied st1 None
    ∧ fired st1 = {[ id ]} ∪ fired st
    ∧ Done (fired st1) c = true
    ∧ contexts st1 = delete r (contexts st)
    ∧ ∀ k, Get st1 r k = Replied st1 (VNil, Some ErrGettingFromBackdrop).
Proof.
  intros Hc (id & Hv & Hin).
  exists id, (set_contexts (delete r) (call_cancel id st)).
  split; [done |]. split; [by apply (on_kill_owned _ _ c) |].
  split; [done |].
  split; [apply (Done_cancel_node _ c id); [done | simpl; set_solver] |].
  split; [done |].
  intros k. apply Get_no_entry, lookup_ctx_delete.
Qed.

(** The end-to-end scenario: [Set(r, "user", "alice")] on a fresh request,
    then [Evict(r)]. *)
Lemma Evict_removes_entry_witness :
  ∃ st1 c, Set_ baseCtx0 store0 7 (KString "user") (VString "alice")
           = Replied st1 None
    ∧ lookup_ctx st1 7 = Some c
    ∧ ∃ id st2, Value c cancelKey = VCancelFunc id
        ∧ Evict st1 7 = Replied st2 None
        ∧ fired st2 = {[ id ]} ∪ fired st1
        ∧ Done (fired st2) c = true
        ∧ contexts st2 = delete 7%positive (contexts st1)
        ∧ ∀ k, Get st2 7 k = Replied st2 (VNil, Some ErrGettingFromBackdrop).
Proof.
  eexists _, _. split; [by apply Set_absent |].
  split; [apply lookup_ctx_insert |].
  apply Evict_removes_entry; [apply lookup_ctx_insert | apply owns_handle_fresh_set].
Defined.

(** C4: on a request that has no entry, [SetContext(r, c)] answers nil and
    leaves the whole store as it was, so no entry is created and [Get(r, k)]
    still fails for every [k]. *)
Theorem SetContext_absent_noop st r (c : option ctx) :
  contexts st !! r = None →
  ∃ st1, SetContext st r c = Replied st1 None
    ∧ st1 = st
    ∧ contexts st1 !! r = None
    ∧ ∀ k, Get st1 r k = Replied st1 (VNil, Some ErrGettingFromBackdrop).
Proof.
  intros Hr. exists st.
  split; [unfold SetContext, on_setCtx; by rewrite Hr |].
  split; [done |]. split; [done |].
  intros k. apply Get_no_entry, lookup_ctx_None. by left.
Qed.

(** The scenario of the spec, after an eviction: on the store of [Start(nil)],
    where request 7 has no entry, [SetContext] with some chain. *)
Lemma SetContext_absent_noop_witness :
  ∃ st1, SetContext store0 7 (Some (WithValue Background (KString "a") (VInt 3)))
         = Replied st1 None
    ∧ st1 = store0
    ∧ contexts st1 !! 7%positive = None
    ∧ ∀ k, Get st1 7 k = Replied st1 (VNil, Some ErrGettingFromBackdrop).
Proof. apply SetContext_absent_noop. reflexivity. Defined.

(** C5: [Evict(r)] answers nil and leaves the store as it was, both when [r]
    has no entry and when its entry carries no cancel function under
    [cancelKey] (a nil chain included): the entry then stays in the map. *)
Theorem Evict_noop st r :
  (contexts st !! r = None → Evict st r = Replied st None)
  ∧ (∀ oc,
       contexts st !! r = Some oc →
       (∀ c id, oc = Some c → Value c cancelKey ≠ VCancelFunc id) →
       Evict st r = Replied st None
       ∧ contexts (store_of (Evict st r)) !! r = Some oc).
Proof.
  split.
  - intros Hr. unfold Evict, on_kill. by rewrite Hr.
  - intros oc Hr Hno.
    assert (Evict st r = Replied st None) as ->; [| done].
    unfold Evict, on_kill. rewrite Hr. destruct oc as [c |]; [| done].
    destruct (Value c cancelKey) as [| | | id |] eqn:Hv; try done.
    by destruct (Hno c id).
Qed.

Lemma Evict_noop_witness :
  let c := WithValue Background (KString "a") (VInt 3) in
  let st := set_contexts <[ 7%positive := Some c ]> store0 in
  Evict store0 7 = Replied store0 None
  ∧ Evict st 7 = Replied st None
  ∧ contexts (store_of (Evict st 7)) !! 7%positive = Some (Some c).
Proof.
  intros c st. split.
  - apply (proj1 (Evict_noop store0 7)). reflexivity.
  - apply (proj2 (Evict_noop st 7)); [reflexivity |].
    intros c' id [= <-]. discriminate.
Defined.

(** C6, as stated, fails: with a [SetContext] between the two calls, which is
    neither a [Set] nor an [Evict], the second [GetContext] returns the chain
    that was installed, and that chain resolves the key ["a"] differently. *)
Lemma SetContext_between_calls :
  ¬ (∀ baseCtx st r ms st1 c st2 replies,
       GetContext baseCtx st r = Replied st1 (Some c) →
       forallb (no_Set_no_Evict r) ms = true →
       worker baseCtx st1 (Recv <$> ms) = (st2, replies, Selecting) →
       ∃ st3 c2, GetContext baseCtx st2 r = Replied st3 (Some c2)
         ∧ ∀ k, Value c2 k = Value c k).
Proof.
  intros H.
  pose (c' := WithValue Background (KString "a") (VInt 3)).
  destruct (H baseCtx0 store0 1%positive [setCtxMessage 1 (Some c')]
              _ _ _ _ eq_refl eq_refl eq_refl) as (st3 & c2 & Hget & Hsame).
  vm_compute in Hget. injection Hget as _ <-.
  specialize (Hsame (KString "a")). vm_compute in Hsame. discriminate Hsame.
Qed.

(** C6 (amended): [GetContext(r)] always answers, with a non-nil chain, which
    is then the entry of [r].  When the guarded lookup finds nothing, the chain
    is new: a cancellation node allocated below [baseCtx], with its cancel
    function bound to [cancelKey].  A second call answers the same chain and
    leaves the store alone, and so it does after any messages that are neither
    a [Set], an [Evict] nor a [SetContext] of [r]. *)
Theorem GetContext_total baseCtx st r :
  ∃ st1 c, GetContext baseCtx st r = Replied st1 (Some c)
    ∧ contexts st1 !! r = Some (Some c)
    ∧ (lookup_ctx st r = None →
         c = WithValue (cancelCtx baseCtx (next_cancel st)) cancelKey
                       (VCancelFunc (next_cancel st))
         ∧ next_cancel st1 = Pos.succ (next_cancel st)
         ∧ fired st1 = fired st)
    ∧ (∀ c0, lookup_ctx st r = Some c0 → c = c0 ∧ st1 = st)
    ∧ GetContext baseCtx st1 r = Replied st1 (Some c)
    ∧ ∀ ms st2 replies,
        forallb (leaves r) ms = true →
        worker baseCtx st1 (Recv <$> ms) = (st2, replies, Selecting) →
        GetContext baseCtx st2 r = Replied st2 (Some c).
Proof.
  assert (Hlater : ∀ st1 c, lookup_ctx st1 r = Some c →
    ∀ ms st2 replies,
      forallb (leaves r) ms = true →
      worker baseCtx st1 (Recv <$> ms) = (st2, replies, Selecting) →
      GetContext baseCtx st2 r = Replied st2 (Some c)).
  { intros st1 c Hc1 ms st2 replies Hms Hrun.
    unfold GetContext, on_fetchCtx.
    by rewrite (worker_leaves baseCtx ms st1 r c st2 replies Hms Hc1 Hrun). }
  unfold GetContext in *. destruct (lookup_ctx st r) as [c0 |] eqn:Hc.
  - exists st, c0. unfold on_fetchCtx at 1 2. rewrite Hc.
    split; [done |]. split; [by apply lookup_ctx_Some |].
    split; [done |]. split; [by intros ? [= <-] |].
    split; [done | by apply Hlater].
  - eexists _, _. split; [by apply on_fetchCtx_absent |].
    split; [simpl; apply lookup_insert_eq |].
    split; [done |]. split; [done |].
    split; [unfold on_fetchCtx; by rewrite lookup_ctx_insert |].
    apply Hlater, lookup_ctx_insert.
Qed.

(** A [Get], a [Set] and an [Evict] of another request and a [GetContext] in
    between. *)
Lemma GetContext_total_witness :
  ∃ st1 c, GetContext baseCtx0 store0 7 = Replied st1 (Some c)
    ∧ c = WithValue (cancelCtx baseCtx0 2) cancelKey (VCancelFunc 2)
    ∧ GetContext baseCtx0 st1 7 = Replied st1 (Some c)
    ∧ ∀ st2 replies,
        worker baseCtx0 st1
          (Recv <$> [fetchValueMessage 7 (KString "a");
                     setValueMessage 8 (KString "a") (VInt 3);
                     killMessage 8; fetchCtxMessage 7])
        = (st2, replies, Selecting) →
        GetContext baseCtx0 st2 7 = Replied st2 (Some c).
Proof.
  destruct (GetContext_total baseCtx0 store0 7)
    as (st1 & c & Hget & _ & Hnew & _ & Hagain & Hlater).
  exists st1, c. split; [done |]. split; [by destruct (Hnew eq_refl) |].
  split; [done |]. intros st2 replies. by apply Hlater.
Defined.

(** C7: the [set] case always replies, and with the resulting chain, which is
    not nil and is then the entry of the request: the old chain with the pair
    on top, or, when the guarded lookup finds nothing, a new cancellation node
    below [baseCtx] with the pair and then the handle on top.  The other
    requests keep their entries.  So [Set] returns nil and never
    [ErrSettingToBackdrop]. *)
Theorem Set_succeeds baseCtx st r k v :
  ∃ st1 c, on_set baseCtx st r k v = Replied st1 (VContext c)
    ∧ is_nil (VContext c) = false
    ∧ Set_ baseCtx st r k v = Replied st1 None
    ∧ contexts st1 !! r = Some (Some c)
    ∧ (∀ c0, lookup_ctx st r = Some c0 →
         c = WithValue c0 k v
         ∧ st1 = set_contexts <[ r := Some c ]> st)
    ∧ (lookup_ctx st r = None →
         c = WithValue (WithValue (cancelCtx baseCtx (next_cancel st)) k v)
                       cancelKey (VCancelFunc (next_cancel st))
         ∧ next_cancel st1 = Pos.succ (next_cancel st)
         ∧ fired st1 = fired st)
    ∧ ∀ r', r' ≠ r → contexts st1 !! r' = contexts st !! r'.
Proof.
  destruct (lookup_ctx st r) as [c |] eqn:Hc.
  - eexists _, _. split; [by apply on_set_present |].
    split; [done |]. split; [by apply Set_present |].
    split; [simpl; apply lookup_insert_eq |].
    split; [by intros c0 [= <-] |]. split; [done |].
    intros r' Hne. simpl. by rewrite lookup_insert_ne.
  - eexists _, _. split; [by apply on_set_absent |].
    split; [done |]. split; [by apply Set_absent |].
    split; [simpl; apply lookup_insert_eq |].
    split; [done |]. split; [done |].
    intros r' Hne. simpl. by rewrite lookup_insert_ne.
Qed.

Lemma Set_succeeds_witness :
  let st := store_of (GetContext baseCtx0 store0 7) in
  ∃ st1 c, Set_ baseCtx0 st 7 (KString "user") (VString "alice") = Replied st1 None
    ∧ contexts st1 !! 7%positive = Some (Some c)
    ∧ c = WithValue (WithValue (cancelCtx baseCtx0 2) cancelKey (VCancelFunc 2))
                    (KString "user") (VString "alice").
Proof.
  intros st.
  destruct (Set_succeeds baseCtx0 st 7 (KString "user") (VString "alice"))
    as (st1 & c & _ & _ & Hset & Hr & Hold & _).
  exists st1, c. split; [done |]. split; [done |].
  by destruct (Hold (WithValue (cancelCtx baseCtx0 2) cancelKey (VCancelFunc 2))
                 eq_refl).
Defined.

(** C8: [cancelKey] is the int 1, a key any caller can pass.  On a request
    that is not in the map, after [GetContext(r)], and as well after
    [Set(r, k, v)] for any [k] and [v], [Get(r, 1)] succeeds and returns the
    cancel function stored by the worker. *)
Theorem Get_cancelKey_exposed baseCtx st r :
  contexts st !! r = None →
  cancelKey = KInt 1
  ∧ (∃ st1 c, GetContext baseCtx st r = Replied st1 (Some c)
       ∧ Get st1 r (KInt 1) = Replied st1 (VCancelFunc (next_cancel st), None))
  ∧ (∀ k v, ∃ st1, Set_ baseCtx st r k v = Replied st1 None
       ∧ Get st1 r (KInt 1) = Replied st1 (VCancelFunc (next_cancel st), None)).
Proof.
  intros Hr. assert (Hc : lookup_ctx st r = None) by (apply lookup_ctx_None; by left).
  split; [done |]. split.
  - eexists _, _. split; [by apply on_fetchCtx_absent |].
    erewrite Get_answer; [| apply lookup_ctx_insert]. done.
  - intros k v. eexists. split; [by apply Set_absent |].
    erewrite Get_answer; [| apply lookup_ctx_insert]. done.
Qed.

Lemma Get_cancelKey_exposed_witness :
  ∃ st1 c, GetContext baseCtx0 store0 7 = Replied st1 (Some c)
    ∧ Get st1 7 (KInt 1) = Replied st1 (VCancelFunc 2, None).
Proof.
  apply (proj1 (proj2 (Get_cancelKey_exposed baseCtx0 store0 7 eq_refl))).
Defined.

(** C9: on a request with an entry, [Set(r, 1, w)] with [w] not a cancel
    function hides the handle: [Evict(r)] then answers nil, calls no cancel
    function and leaves the store as it is, the entry included, so [Get]
    answers as before for the other keys and [w] for the key 1. *)
Theorem Set_cancelKey_disables_Evict baseCtx st r c w :
  lookup_ctx st r = Some c →
  (∀ id, w ≠ VCancelFunc id) →
  ∃ st1, Set_ baseCtx st r (KInt 1) w = Replied st1 None
    ∧ Evict st1 r = Replied st1 None
    ∧ fired st1 = fired st
    ∧ contexts st1 !! r = Some (Some (WithValue c (KInt 1) w))
    ∧ Get st1 r (KInt 1) = Replied st1 (answer w)
    ∧ ∀ k, k ≠ KInt 1 → Get st1 r k = Replied st1 (answer (Value c k)).
Proof.
  intros Hc Hw. eexists. split; [by apply Set_present |].
  split.
  { unfold Evict, on_kill. simpl. rewrite lookup_insert_eq. simpl.
    destruct w; try done. by destruct (Hw id). }
  split; [done |]. split; [simpl; apply lookup_insert_eq |].
  split.
  - erewrite Get_answer; [| apply lookup_ctx_insert]. done.
  - intros k Hk. erewrite Get_answer; [| apply lookup_ctx_insert].
    by rewrite Value_WithValue_ne.
Qed.

Lemma Set_cancelKey_disables_Evict_witness :
  let st := store_of (Set_ baseCtx0 store0 7 (KString "user") (VString "alice")) in
  ∃ st1, Set_ baseCtx0 st 7 (KInt 1) (VString "y") = Replied st1 None
    ∧ Evict st1 7 = Replied st1 None
    ∧ fired st1 = fired st
    ∧ Get st1 7 (KString "user") = Replied st1 (VString "alice", None).
Proof.
  intros st.
  destruct (Set_cancelKey_disables_Evict baseCtx0 st 7
              (WithValue (WithValue (cancelCtx baseCtx0 2)
                                    (KString "user") (VString "alice"))
                         cancelKey (VCancelFunc 2))
              (VString "y") eq_refl)
    as (st1 & Hset & Hev & Hfired & _ & _ & Hget).
  - discriminate.
  - exists st1. split; [done |]. split; [done |]. split; [done |].
    apply (Hget (KString "user")). discriminate.
Defined.

(** With a cancel function of another chain under the key 1, [Evict] cancels
    that other chain and then waits on a [Done] channel nobody closes: after
    [GetContext] for the requests 1 and 2, [Set(1, 1, h)] with [h] the handle
    of request 2, [Evict(1)] does not return. *)
Lemma Evict_foreign_handle_blocks :
  let st1 := store_of (GetContext baseCtx0 store0 1) in
  let st2 := store_of (GetContext baseCtx0 st1 2) in
  let st3 := store_of (Set_ baseCtx0 st2 1 (KInt 1) (handle_of st2 2)) in
  ∃ st c, Evict st3 1 = Blocked st c
    ∧ lookup_ctx st 1 = Some c
    ∧ Done (fired st) c = false
    ∧ (∃ c2, lookup_ctx st 2 = Some c2 ∧ Done (fired st) c2 = true).
Proof. vm_compute. eexists _, _. split; [reflexivity |]. eauto. Qed.

(** ** Stop *)

Lemma exited_le pool : exited pool ≤ length pool.
Proof. induction pool as [| p pool IH]; simpl; [done |]. destruct (is_exited p); lia. Qed.

Lemma exited_all pool :
  length pool ≤ exited pool → Forall (fun p => p = Exited) pool.
Proof.
  induction pool as [| p pool IH]; simpl; intros Hlen; [done |].
  pose proof (exited_le pool). destruct p; simpl in Hlen; try lia.
  constructor; [done |]. apply IH. lia.
Qed.

Lemma exited_replicate n : exited (replicate n AtSelect) = 0.
Proof. induction n as [| n IH]; simpl; [done | by rewrite IH]. Qed.

(** Moving one worker changes the count by that worker alone. *)
Lemma exited_insert pool : ∀ i p q,
  pool !! i = Some q →
  exited (<[ i := p ]> pool) + (if is_exited q then 1 else 0)
  = exited pool + (if is_exited p then 1 else 0).
Proof.
  induction pool as [| p0 pool IH]; intros [| i] p q Hi; simplify_eq/=.
  - lia.
  - specialize (IH i p q Hi). lia.
Qed.

Lemma stop_inv_Start options :
  stop_inv (Start options) (Start options).
Proof.
  constructor; try done.
  unfold Start, startBackdrop. simpl. by rewrite exited_replicate.
Qed.

Lemma step_stop_inv s0 a s s' :
  stop_inv s0 s → step a s = Some s' → stop_inv s0 s'.
Proof.
  intros [Hpool Hroot Hdone Hacks Hcalled Hidle Hreading Hreturned] Hstep.
  destruct a as [| | | | i | i | m | i ch | i | id]; simpl in Hstep.
  - (* CallStop *)
    destruct (stopper s) eqn:Hs; simplify_eq.
    constructor; simpl; try done.
    + intros _. set_solver.
    + intros i [= <-]. by apply Hidle.
  - (* StopReceives *)
    destruct (stopper s) as [| i |] eqn:Hs; [done | | done].
    destruct (stopped s) as [| n] eqn:Hn; [done |].
    case_decide; simplify_eq.
    constructor; simpl; try done.
    + lia.
    + intros _. by apply Hcalled.
    + intros j [= <-]. by rewrite (Hreading i).
  - (* StopReturns *)
    destruct (stopper s) as [| i |] eqn:Hs; [done | | done].
    case_decide; simplify_eq.
    constructor; simpl; try done.
    + intros _. by apply Hcalled.
    + intros _. by apply Hreading.
  - (* SupervisorWakes *)
    destruct (supervisor s); [| done].
    destruct (Done _ _); simplify_eq. by constructor.
  - (* Halts *)
    destruct (supervisor s) as [| j]; [done |].
    destruct (pool s !! i) as [[| | |] |] eqn:Hi; try done.
    case_decide; simplify_eq.
    pose proof (exited_insert (pool s) j AtStopped AtSelect Hi) as Hex.
    constructor; simpl in *; rewrite ?length_insert; try done. lia.
  - (* Acknowledges *)
    destruct (pool s !! i) as [[| | |] |] eqn:Hi; try done.
    case_decide; simplify_eq.
    pose proof (exited_insert (pool s) i Exited AtStopped Hi) as Hex.
    constructor; simpl in *; rewrite ?length_insert; try done. lia.
  - (* Sends *)
    case_decide; simplify_eq. by constructor.
  - (* Serves *)
    destruct (pool s !! i) as [[| | |] |] eqn:Hi; try done.
    destruct (take ch (mailbox s)) as [[m q] |]; [| done].
    pose proof (serve_fired (rootCtx s) (heap s) m) as Hfired.
    destruct (serve (rootCtx s) (heap s) m) as [st a | st c]; simplify_eq.
    + constructor; simpl in *; try done.
      intros Hs. apply Hfired. by apply Hcalled.
    + pose proof (exited_insert (pool s) i (InEvict (Request m) c) AtSelect Hi) as Hex.
      constructor; simpl in *; rewrite ?length_insert; try done.
      * lia.
      * intros Hs. apply Hfired. by apply Hcalled.
  - (* Resumes *)
    destruct (pool s !! i) as [[| r c | |] |] eqn:Hi; try done.
    destruct (Done _ c); simplify_eq.
    pose proof (exited_insert (pool s) i AtSelect (InEvict r c) Hi) as Hex.
    constructor; simpl in *; rewrite ?length_insert; try done. lia.
  - (* Cancels *)
    simplify_eq. constructor; simpl; try done.
    intros Hs. specialize (Hcalled Hs). set_solver.
Qed.

Lemma run_stop_inv schedule : ∀ s0 s s',
  stop_inv s0 s → run schedule s = Some s' → stop_inv s0 s'.
Proof.
  induction schedule as [| a schedule IH]; intros s0 s s' Hinv Hrun; simpl in Hrun.
  - by simplify_eq.
  - destruct (step a s) as [s1 |] eqn:Hstep; [| done].
    apply (IH s0 s1); [| done]. by apply (step_stop_inv s0 a s).
Qed.

Lemma spawned_pos options : 1 ≤ spawned options.
Proof.
  unfold spawned, SaneDefaults. simpl.
  destruct (NumWorkers _ <=? 0)%Z eqn:Hle; [done |].
  apply Z.leb_gt in Hle. lia.
Qed.

Lemma Start_pool options : length (pool (Start options)) = spawned options.
Proof. unfold Start, startBackdrop, spawned. simpl. apply length_replicate. Qed.

Lemma Start_rootCtx options :
  ∃ ctx0, rootCtx (Start options) = cancelCtx ctx0 (done_ (Start options)).
Proof. unfold Start, startBackdrop. simpl. eauto. Qed.

(** At the [select] reached by [Sends early_set; CallStop; SupervisorWakes]
    both [case <-halt] and [case message := <-set] are ready, and either can
    be taken; taking the message first, it is served before the worker
    halts. *)
Lemma select_takes_either :
  ∃ s, run [Sends early_set; CallStop; SupervisorWakes] (Start None) = Some s
    ∧ is_Some (step (Halts 0) s)
    ∧ is_Some (step (Serves 0 set_) s)
    ∧ ∃ s', run [Serves 0 set_; Halts 0; Acknowledges 0; StopReceives; StopReturns] s
            = Some s'
        ∧ stopper s' = Returned ∧ mailbox s' = [] ∧ length (sent s') = 1.
Proof.
  eexists. split; [vm_compute; reflexivity |].
  split; [vm_compute; eauto |]. split; [vm_compute; eauto |].
  eexists. split; [vm_compute; reflexivity |]. done.
Qed.

(** C10, as stated, fails in its last part: with the default options, a [Set]
    message sent before [Stop] is still in its channel when [Stop] returns;
    the worker took [halt] at a [select] where both were ready. *)
Lemma Stop_leaves_message_unserved :
  ¬ (∀ options schedule s,
       run schedule (Start options) = Some s →
       stopper s = Returned →
       Forall (fun p => p = Exited) (pool s)
       ∧ ∀ m, (m, true) ∉ mailbox s).
Proof.
  intros H.
  destruct (run halt_first (Start None)) as [s |] eqn:Hrun; [| by vm_compute in Hrun].
  destruct (H None halt_first s Hrun) as [_ Hserved].
  - vm_compute in Hrun. by injection Hrun as <-.
  - apply (Hserved early_set). vm_compute in Hrun. injection Hrun as <-.
    simpl. apply list_elem_of_here.
Qed.

(** C10 (amended): whatever the goroutines do, once [Stop] has returned it
    has called [done], so the root scope is cancelled, it has received one
    value from [stopped] for every spawned worker, and every worker has left
    its loop and returned.  Nothing is said of the messages still in the
    channels. *)
Theorem Stop_returns_after_workers options schedule s :
  run schedule (Start options) = Some s →
  stopper s = Returned →
  Done (fired (heap s)) (rootCtx s) = true
  ∧ length (pool s) = spawned options
  ∧ received s = spawned options
  ∧ Forall (fun p => p = Exited) (pool s).
Proof.
  intros Hrun Hret.
  destruct (run_stop_inv schedule _ _ _ (stop_inv_Start options) Hrun)
    as [Hpool Hroot Hdone Hacks Hcalled Hidle Hreading Hreturned].
  rewrite Start_pool in Hpool. split; [| split; [done |]].
  - destruct (Start_rootCtx options) as [ctx0 Hctx].
    rewrite Hroot, Hctx, <- Hdone. simpl.
    rewrite bool_decide_eq_true_2; [done |]. apply Hcalled. by rewrite Hret.
  - specialize (Hreturned Hret). split; [lia |].
    apply exited_all. lia.
Qed.

(** Two workers, a message served before [Stop], both workers halted. *)
Lemma Stop_returns_after_workers_witness :
  ∃ s, run serve_then_stop (Start (Some (NewOptions None 2 1))) = Some s
    ∧ Done (fired (heap s)) (rootCtx s) = true
    ∧ length (pool s) = 2
    ∧ received s = 2
    ∧ Forall (fun p => p = Exited) (pool s).
Proof.
  destruct (run serve_then_stop (Start (Some (NewOptions None 2 1))))
    as [s |] eqn:Hrun; [| by vm_compute in Hrun].
  exists s. split; [done |].
  apply (Stop_returns_after_workers (Some (NewOptions None 2 1)) serve_then_stop s Hrun).
  vm_compute in Hrun. by injection Hrun as <-.
Defined.

(** ** Further properties of the store operations *)

Lemma Get_total st r k :
  Get st r k =
    Replied st (match lookup_ctx st r with
                | Some c => answer (Value c k)
                | None => (VNil, Some ErrGettingFromBackdrop)
                end).
Proof.
  destruct (lookup_ctx st r) as [c |] eqn:Hc.
  - by apply Get_answer.
  - by apply Get_no_entry.
Qed.

Lemma lookup_ctx_ext st st' r :
  contexts st' !! r = contexts st !! r → lookup_ctx st' r = lookup_ctx st r.
Proof. unfold lookup_ctx. by intros ->. Qed.





(** X2: [Evict] never returns an error; when it returns, a second [Evict] of
    the same request finds nothing to do; and it leaves the entries of the
    other requests and the cancellations already made as they are. *)
Theorem Evict_twice st r st1 e :
  Evict st r = Replied st1 e →
  e = None
  ∧ Evict st1 r = Replied st1 None
  ∧ fired st ⊆ fired st1
  ∧ ∀ r', r' ≠ r → contexts st1 !! r' = contexts st !! r'.
Proof.
  unfold Evict, on_kill. intros Hev.
  destruct (contexts st !! r) as [[c |] |] eqn:Hr.
  - destruct (Value c cancelKey) as [| | | id |] eqn:Hv; simplify_eq;
      try (rewrite Hr, Hv; done).
    destruct (Done _ c) eqn:Hdone; simplify_eq. simpl.
    rewrite lookup_delete_eq. split; [done |]. split; [done |].
    split; [set_solver |]. intros r' Hne. by rewrite lookup_delete_ne.
  - simplify_eq. by rewrite Hr.
  - simplify_eq. by rewrite Hr.
Qed.

Lemma Evict_twice_witness :
  let st := store_of (Set_ baseCtx0 store0 7 (KString "user") (VString "alice")) in
  ∃ st1, Evict st 7 = Replied st1 None ∧ Evict st1 7 = Replied st1 None.
Proof.
  intros st.
  destruct (Evict st 7) as [st1 e | st1 c] eqn:Hev; [| by vm_compute in Hev].
  destruct (Evict_twice st 7 st1 e Hev) as (-> & Hagain & _).
  by exists st1.
Defined.

(** X3: on a request that is in the map, [SetContext(r, c)] stores [c] as it
    is: [GetContext(r)] then returns [c] and changes nothing, [Get(r, k)]
    answers what [c] resolves [k] to, no cancel function is called, and the
    other requests keep their entries. *)
Theorem SetContext_then_GetContext baseCtx st r c :
  is_Some (contexts st !! r) →
  ∃ st1, SetContext st r (Some c) = Replied st1 None
    ∧ contexts st1 !! r = Some (Some c)
    ∧ GetContext baseCtx st1 r = Replied st1 (Some c)
    ∧ (∀ k, Get st1 r k = Replied st1 (answer (Value c k)))
    ∧ fired st1 = fired st
    ∧ ∀ r', r' ≠ r → contexts st1 !! r' = contexts st !! r'.
Proof.
  intros [oc Hr]. exists (set_contexts <[ r := Some c ]> st).
  split; [unfold SetContext, on_setCtx; by rewrite Hr |].
  split; [simpl; apply lookup_insert_eq |].
  split; [unfold GetContext, on_fetchCtx; by rewrite lookup_ctx_insert |].
  split; [intros k; apply Get_answer, lookup_ctx_insert |].
  split; [done |]. intros r' Hne. simpl. by rewrite lookup_insert_ne.
Qed.

Lemma SetContext_then_GetContext_witness :
  let st := store_of (GetContext baseCtx0 store0 7) in
  let c := WithValue Background (KString "a") (VInt 3) in
  ∃ st1, SetContext st 7 (Some c) = Replied st1 None
    ∧ GetContext baseCtx0 st1 7 = Replied st1 (Some c)
    ∧ Get st1 7 (KString "a") = Replied st1 (VInt 3, None).
Proof.
  intros st c.
  destruct (SetContext_then_GetContext baseCtx0 st 7 c)
    as (st1 & Hset & _ & Hget & Hval & _).
  - vm_compute. eauto.
  - exists st1. split; [done |]. split; [done |]. apply (Hval (KString "a")).
Defined.

(** X4: the idiom [ctx := GetContext(r); SetContext(r, WithValue(ctx, k, v))]
    always succeeds and makes [Get(r, k)] answer [v], for every key, the key 1
    included; when the request already has a chain it leaves the very store
    that [Set(r, k, v)] leaves. *)
Theorem GetContext_WithValue_SetContext baseCtx st r k v :
  ∃ st1 c st2, GetContext baseCtx st r = Replied st1 (Some c)
    ∧ SetContext st1 r (Some (WithValue c k v)) = Replied st2 None
    ∧ Get st2 r k = Replied st2 (answer v)
    ∧ (is_Some (lookup_ctx st r) → Set_ baseCtx st r k v = Replied st2 None).
Proof.
  destruct (lookup_ctx st r) as [c0 |] eqn:Hc.
  - exists st, c0, (set_contexts <[ r := Some (WithValue c0 k v) ]> st).
    split; [unfold GetContext, on_fetchCtx; by rewrite Hc |].
    split.
    { unfold SetContext, on_setCtx. apply lookup_ctx_Some in Hc. by rewrite Hc. }
    split.
    { erewrite Get_answer; [| apply lookup_ctx_insert].
      by rewrite Value_WithValue_eq. }
    intros _. by apply Set_present.
  - eexists _, _, _. split; [by apply on_fetchCtx_absent |].
    split.
    { unfold SetContext, on_setCtx. simpl. by rewrite lookup_insert_eq. }
    split.
    { erewrite Get_answer; [| apply lookup_ctx_insert].
      by rewrite Value_WithValue_eq. }
    by intros [? ?].
Qed.

Lemma GetContext_WithValue_SetContext_witness :
  let st := store_of (Set_ baseCtx0 store0 7 (KString "user") (VString "alice")) in
  ∃ st2, Set_ baseCtx0 st 7 (KString "key") (VString "value") = Replied st2 None
    ∧ Get st2 7 (KString "key") = Replied st2 (VString "value", None).
Proof.
  intros st.
  destruct (GetContext_WithValue_SetContext baseCtx0 st 7 (KString "key")
              (VString "value")) as (st1 & c & st2 & _ & _ & Hget & Hset).
  exists st2. split; [| done]. apply Hset. vm_compute. eauto.
Defined.

(** X5: [SetContext(r, nil)] on a request that is in the map keeps the key and
    stores the nil chain, calling no cancel function: [Get(r, k)] then fails
    for every key, [Evict(r)] finds nothing to cancel and leaves the key, and
    the next [GetContext(r)] makes a new chain with a handle of its own. *)
Theorem SetContext_nil baseCtx st r :
  is_Some (contexts st !! r) →
  ∃ st1, SetContext st r None = Replied st1 None
    ∧ contexts st1 !! r = Some None
    ∧ fired st1 = fired st
    ∧ (∀ k, Get st1 r k = Replied st1 (VNil, Some ErrGettingFromBackdrop))
    ∧ Evict st1 r = Replied st1 None
    ∧ ∃ st2 c, GetContext baseCtx st1 r = Replied st2 (Some c)
        ∧ c = WithValue (cancelCtx baseCtx (next_cancel st)) cancelKey
                        (VCancelFunc (next_cancel st))
        ∧ owns_handle c.
Proof.
  intros [oc Hr]. exists (set_contexts <[ r := None ]> st).
  assert (Hnone : lookup_ctx (set_contexts <[ r := None ]> st) r = None)
    by apply lookup_ctx_insert.
  split; [unfold SetContext, on_setCtx; by rewrite Hr |].
  split; [simpl; apply lookup_insert_eq |]. split; [done |].
  split; [intros k; by apply Get_no_entry |].
  split; [unfold Evict, on_kill; simpl; by rewrite lookup_insert_eq |].
  eexists _, _. split; [by apply on_fetchCtx_absent |].
  split; [done |]. apply owns_handle_fresh.
Qed.

Lemma SetContext_nil_witness :
  let st := store_of (Set_ baseCtx0 store0 7 (KString "user") (VString "alice")) in
  ∃ st1, SetContext st 7 None = Replied st1 None
    ∧ Get st1 7 (KString "user") = Replied st1 (VNil, Some ErrGettingFromBackdrop)
    ∧ Evict st1 7 = Replied st1 None
    ∧ contexts st1 !! 7%positive = Some None.
Proof.
  intros st.
  destruct (SetContext_nil baseCtx0 st 7) as (st1 & Hset & Hr & _ & Hget & Hev & _).
  - vm_compute. eauto.
  - exists st1. split; [done |]. split; [apply Hget |]. by split.
Defined.

(** ** Tame use: the worker never blocks *)

Lemma owns_handleb_spec c : owns_handleb c = true ↔ owns_handle c.
Proof.
  unfold owns_handleb, owns_handle. split.
  - destruct (Value c cancelKey) as [| | | id |]; try done.
    intros Hin%bool_decide_eq_true. eauto.
  - intros (id & -> & Hin). by apply bool_decide_eq_true.
Qed.

Lemma handles_owned_insert st r oc :
  handles_owned st →
  (∀ c, oc = Some c → owns_handle c) →
  handles_owned (set_contexts <[ r := oc ]> st).
Proof.
  intros Hst Hoc r' c Hc. destruct (decide (r = r')) as [<- | Hne].
  - rewrite lookup_ctx_insert in Hc. by apply Hoc.
  - rewrite lookup_ctx_insert_ne in Hc by done. by apply (Hst r').
Qed.

Lemma handles_owned_delete st r :
  handles_owned st → handles_owned (set_contexts (delete r) st).
Proof.
  intros Hst r' c Hc. destruct (decide (r = r')) as [<- | Hne].
  - by rewrite lookup_ctx_delete in Hc.
  - rewrite lookup_ctx_delete_ne in Hc by done. by apply (Hst r').
Qed.

Lemma handles_owned_ext st st' :
  contexts st' = contexts st → handles_owned st → handles_owned st'.
Proof.
  intros Heq Hst r c Hc. apply (Hst r).
  rewrite <- Hc. symmetry. apply lookup_ctx_ext. by rewrite Heq.
Qed.

Lemma handles_owned_store0 : handles_owned store0.
Proof. intros r c Hc. by vm_compute in Hc. Qed.

Lemma GetContext_owned baseCtx st r :
  handles_owned st →
  ∃ st1 c, GetContext baseCtx st r = Replied st1 (Some c)
    ∧ lookup_ctx st1 r = Some c ∧ owns_handle c ∧ handles_owned st1.
Proof.
  intros Hst. unfold GetContext. destruct (lookup_ctx st r) as [c |] eqn:Hc.
  - exists st, c. unfold on_fetchCtx. rewrite Hc.
    split; [done |]. split; [done |]. split; [by apply (Hst r) | done].
  - eexists _, _. split; [by apply on_fetchCtx_absent |].
    split; [apply lookup_ctx_insert |]. split; [apply owns_handle_fresh |].
    apply handles_owned_insert.
    + by apply (handles_owned_ext st).
    + intros c [= <-]. apply owns_handle_fresh.
Qed.

Lemma Set_owned baseCtx st r k v :
  handles_owned st → k ≠ cancelKey →
  ∃ st1 c, Set_ baseCtx st r k v = Replied st1 None
    ∧ lookup_ctx st1 r = Some c ∧ Value c k = v ∧ owns_handle c
    ∧ handles_owned st1.
Proof.
  intros Hst Hk. destruct (lookup_ctx st r) as [c |] eqn:Hc.
  - eexists _, _. split; [by apply Set_present |].
    assert (owns_handle (WithValue c k v))
      by (apply owns_handle_WithValue; [done | by apply (Hst r)]).
    split; [apply lookup_ctx_insert |]. split; [apply Value_WithValue_eq |].
    split; [done |]. apply handles_owned_insert; [done |]. by intros c' [= <-].
  - eexists _, _. split; [by apply Set_absent |].
    split; [apply lookup_ctx_insert |].
    split; [rewrite Value_WithValue_ne by done; apply Value_WithValue_eq |].
    split; [apply owns_handle_fresh_set |].
    apply handles_owned_insert.
    + by apply (handles_owned_ext st).
    + intros c [= <-]. apply owns_handle_fresh_set.
Qed.

Lemma SetContext_owned st r oc :
  handles_owned st → tame (setCtxMessage r oc) = true →
  ∃ st1, SetContext st r oc = Replied st1 None ∧ handles_owned st1
    ∧ (is_Some (contexts st !! r) → lookup_ctx st1 r = oc)
    ∧ (contexts st !! r = None → st1 = st).
Proof.
  intros Hst Htame. unfold SetContext, on_setCtx.
  destruct (contexts st !! r) as [oc0 |] eqn:Hr.
  - eexists. split; [done |]. split.
    + apply handles_owned_insert; [done |]. intros c ->.
      by apply owns_handleb_spec.
    + split; [intros _; apply lookup_ctx_insert | done].
  - exists st. split; [done |]. split; [done |]. split; [by intros [? ?] | done].
Qed.

Lemma Evict_owned st r :
  handles_owned st →
  ∃ st1, Evict st r = Replied st1 None
    ∧ handles_owned st1 ∧ lookup_ctx st1 r = None.
Proof.
  intros Hst. destruct (lookup_ctx st r) as [c |] eqn:Hc.
  - destruct (Hst r c Hc) as (id & Hv & Hin).
    eexists. split; [by apply (on_kill_owned _ _ c id) |].
    split; [| apply lookup_ctx_delete].
    apply handles_owned_delete. by apply (handles_owned_ext st).
  - exists st. split; [| done].
    unfold Evict, on_kill. apply lookup_ctx_None in Hc as [-> | ->]; done.
Qed.

Lemma serve_tame baseCtx st m :
  handles_owned st → tame m = true →
  ∃ st1 a, serve baseCtx st m = Replied st1 a ∧ handles_owned st1.
Proof.
  intros Hst Htame. destruct m as [r | r oc | r k | r k v | r]; simpl.
  - destruct (GetContext_owned baseCtx st r Hst) as (st1 & c & Hget & _ & _ & H1).
    unfold GetContext in Hget. rewrite Hget. simpl. eauto.
  - destruct (SetContext_owned st r oc Hst Htame) as (st1 & Hset & H1 & _).
    unfold SetContext in Hset. rewrite Hset. simpl. eauto.
  - unfold on_fetch. destruct (lookup_ctx st r); simpl; eauto.
  - simpl in Htame. apply bool_decide_eq_true in Htame.
    destruct (Set_owned baseCtx st r k v Hst Htame) as (st1 & c & Hset & _ & _ & _ & H1).
    unfold Set_ in Hset. destruct (on_set baseCtx st r k v) as [st' a | st' c']; simpl in *.
    + destruct (is_nil a); simplify_eq; eauto.
    + done.
  - destruct (Evict_owned st r Hst) as (st1 & Hev & H1 & _).
    unfold Evict in Hev. rewrite Hev. simpl. eauto.
Qed.

(** X6: while every stored chain owns its handle, a worker that is sent only
    tame messages (no [Set] of the key 1, no [SetContext] with a chain that
    lacks its own handle) answers every one of them, one reply each, never
    blocks in [Evict], and every stored chain still owns its handle. *)
Theorem tame_worker_replies baseCtx ms : ∀ st,
  handles_owned st →
  forallb tame ms = true →
  ∃ st' replies,
    worker baseCtx st (Recv <$> ms) = (st', replies, Selecting)
    ∧ length replies = length ms
    ∧ handles_owned st'.
Proof.
  induction ms as [| m ms IH]; intros st Hst Hall; csimpl in *.
  - by exists st, [].
  - apply andb_true_iff in Hall as [Hm Hms].
    destruct (serve_tame baseCtx st m Hst Hm) as (st1 & a & -> & H1).
    destruct (IH st1 H1 Hms) as (st2 & replies & -> & Hlen & H2).
    exists st2, (a :: replies). simpl. by rewrite Hlen.
Qed.

Lemma tame_worker_replies_witness :
  let ms := [setValueMessage 7 (KString "user") (VString "alice");
             fetchCtxMessage 8; killMessage 7; killMessage 8; killMessage 9] in
  ∃ st' replies,
    worker baseCtx0 store0 (Recv <$> ms) = (st', replies, Selecting)
    ∧ length replies = length ms
    ∧ handles_owned st'.
Proof.
  intros ms.
  apply (tame_worker_replies baseCtx0 ms store0 handles_owned_store0). reflexivity.
Defined.

(** ** The handler wrapper *)

Lemma run_handler_tame {A} baseCtx (hd : handler A) : ∀ st,
  handles_owned st →
  tame_run baseCtx hd st = true →
  ∃ st1 a, run_handler baseCtx hd st = Replied st1 a ∧ handles_owned st1.
Proof.
  induction hd as [a | r k next IH | r k v next IH | r next IH | r c next IH | r next IH];
    intros st Hst Htame; simpl in *.
  - eauto.
  - rewrite Get_total in *. simpl. by apply IH.
  - apply andb_true_iff in Htame as [Hk Htame]. apply bool_decide_eq_true in Hk.
    destruct (Set_owned baseCtx st r k v Hst Hk) as (st1 & c & Hset & _ & _ & _ & H1).
    rewrite Hset in *. simpl. by apply IH.
  - destruct (GetContext_owned baseCtx st r Hst) as (st1 & c & Hget & _ & _ & H1).
    rewrite Hget in *. simpl. by apply IH.
  - apply andb_true_iff in Htame as [Hc Htame].
    destruct (SetContext_owned st r c Hst Hc) as (st1 & Hset & H1 & _).
    rewrite Hset in *. simpl. by apply IH.
  - destruct (Evict_owned st r Hst) as (st1 & Hev & H1 & _).
    rewrite Hev in *. simpl. by apply IH.
Qed.

(** X7: [ClearContextHandler.ServeHTTP] clears the context: while every
    stored chain owns its handle and the wrapped handler makes only tame
    calls, [ServeHTTP] returns with the handler's result, the request has no
    chain left, so that [Get(r, k)] fails for every key, and every chain still
    stored owns its handle. *)
Theorem ServeHTTP_clears {A} baseCtx (hw : ClearContextHandler A) st r :
  handles_owned st →
  tame_run baseCtx (h hw r) st = true →
  ∃ st1 st2 a,
    run_handler baseCtx (h hw r) st = Replied st1 a
    ∧ ServeHTTP baseCtx hw st r = Replied st2 a
    ∧ lookup_ctx st2 r = None
    ∧ (∀ k, Get st2 r k = Replied st2 (VNil, Some ErrGettingFromBackdrop))
    ∧ handles_owned st2.
Proof.
  intros Hst Htame.
  destruct (run_handler_tame baseCtx (h hw r) st Hst Htame) as (st1 & a & Hrun & H1).
  destruct (Evict_owned st1 r H1) as (st2 & Hev & H2 & Hgone).
  exists st1, st2, a. split; [done |].
  split; [unfold ServeHTTP; rewrite Hrun; simpl; by rewrite Hev |].
  split; [done |]. split; [| done].
  intros k. by apply Get_no_entry.
Qed.

Lemma ServeHTTP_clears_witness :
  ∃ st2, ServeHTTP baseCtx0 (NewClearContextHandler test_handler) store0 7
         = Replied st2 true
    ∧ ∀ k, Get st2 7 k = Replied st2 (VNil, Some ErrGettingFromBackdrop).
Proof.
  destruct (ServeHTTP_clears baseCtx0 (NewClearContextHandler test_handler) store0 7
              handles_owned_store0 eq_refl)
    as (st1 & st2 & a & Hrun & Hserve & _ & Hget & _).
  exists st2. split; [| done].
  vm_compute in Hrun. injection Hrun as _ <-. done.
Defined.

(** X8: [TestClearContextHandler] passes on every request, from every store
    whose chains own their handles (the store of [Start] is one): the calls of
    the handler succeed and return ["testing"], and after [ServeHTTP] the
    request has no chain and [Get] fails. *)
Theorem TestClearContextHandler_passes baseCtx st r :
  handles_owned st →
  ∃ st', TestClearContextHandler baseCtx st r = Replied st' true
    ∧ lookup_ctx st' r = None
    ∧ handles_owned st'.
Proof.
  intros Hst.
  assert (Hk : KString "test" ≠ cancelKey) by done.
  destruct (Set_owned baseCtx st r (KString "test") (VString "testing") Hst Hk)
    as (st1 & c & Hset & Hc & Hv & Hown & H1).
  assert (Hget1 : GetContext baseCtx st1 r = Replied st1 (Some c))
    by (unfold GetContext, on_fetchCtx; by rewrite Hc).
  assert (Hsetctx : ∃ st2, SetContext st1 r (Some c) = Replied st2 None
                      ∧ lookup_ctx st2 r = Some c ∧ handles_owned st2).
  { destruct (SetContext_owned st1 r (Some c) H1) as (st2 & Hs & H2 & Hin & _).
    - by apply owns_handleb_spec.
    - exists st2. split; [done |]. split; [| done].
      apply Hin. apply lookup_ctx_Some in Hc. by rewrite Hc. }
  destruct Hsetctx as (st2 & Hsetctx & Hc2 & H2).
  destruct (Evict_owned st2 r H2) as (st3 & Hev & H3 & Hgone).
  exists st3. split; [| done].
  unfold TestClearContextHandler, ServeHTTP. simpl.
  rewrite Hset. simpl. rewrite Hget1. simpl. rewrite Hsetctx. simpl.
  rewrite (Get_answer st2 r _ c Hc2), Hv. simpl.
  rewrite Hev. simpl. by rewrite (Get_no_entry st3 r _ Hgone).
Qed.

Lemma TestClearContextHandler_passes_witness :
  ∃ st', TestClearContextHandler baseCtx0 store0 7 = Replied st' true.
Proof.
  destruct (TestClearContextHandler_passes baseCtx0 store0 7 handles_owned_store0)
    as (st' & Htest & _).
  by exists st'.
Defined.

(** ** Managed stores: an eviction cancels its own scope only *)

Lemma first_id_above c id :
  id ∈ cancel_nodes c → (id < first_id c)%positive.
Proof.
  unfold first_id. induction (cancel_nodes c) as [| id' l IH]; simpl; intros Hin.
  - by apply elem_of_nil in Hin.
  - apply elem_of_cons in Hin as [-> | Hin]; [lia |].
    specialize (IH Hin). lia.
Qed.

Lemma Done_cancel_other F c id :
  id ∉ cancel_nodes c → Done ({[ id ]} ∪ F) c = Done F c.
Proof.
  induction c as [| parent IH id' | parent IH k v]; simpl; intros Hnot; [done | |].
  - rewrite not_elem_of_cons in Hnot. destruct Hnot as [Hne Hnot].
    rewrite (IH Hnot). f_equal. apply bool_decide_ext.
    rewrite elem_of_union, elem_of_singleton. split; [| by right].
    by intros [-> | ?].
  - by apply IH.
Qed.

Lemma managed_Start options :
  managed (rootCtx (Start options)) (heap (Start options)).
Proof.
  unfold Start, startBackdrop. simpl.
  set (ctx0 := default Background _).
  constructor; simpl.
  - intros id [-> | Hin]%elem_of_cons; [lia |].
    apply first_id_above in Hin. lia.
  - intros r c Hc. by vm_compute in Hc.
  - intros r r' c c' Hc. by vm_compute in Hc.
Qed.

(** Storing for [r] a chain with the node [id], which no other entry has. *)
Lemma managed_update baseCtx st st1 r c id :
  managed baseCtx st →
  contexts st1 = <[ r := Some c ]> (contexts st) →
  (next_cancel st ≤ next_cancel st1)%positive →
  cancel_nodes c = id :: cancel_nodes baseCtx →
  Value c cancelKey = VCancelFunc id →
  (id < next_cancel st1)%positive →
  id ∉ cancel_nodes baseCtx →
  (∀ r' c', r' ≠ r → lookup_ctx st r' = Some c' →
            head (cancel_nodes c') ≠ Some id) →
  managed baseCtx st1.
Proof.
  intros [Hbase Hentry Hdistinct] Hmap Hnext Hnodes Hv Hlt Hnot Hother.
  assert (Hr : lookup_ctx st1 r = Some c).
  { unfold lookup_ctx. by rewrite Hmap, lookup_insert_eq. }
  assert (Hr' : ∀ r', r' ≠ r → lookup_ctx st1 r' = lookup_ctx st r').
  { intros r' Hne. unfold lookup_ctx. by rewrite Hmap, lookup_insert_ne. }
  constructor.
  - intros id' Hin. specialize (Hbase id' Hin). lia.
  - intros r' c' Hc'. destruct (decide (r' = r)) as [-> | Hne].
    + rewrite Hr in Hc'. simplify_eq. by exists id.
    + rewrite Hr' in Hc' by done.
      destruct (Hentry r' c' Hc') as (id' & ? & ? & ? & ?).
      exists id'. repeat split; try done. lia.
  - intros r1 r2 c1 c2 H1 H2 Hhead.
    destruct (decide (r1 = r)) as [-> | Hne1], (decide (r2 = r)) as [-> | Hne2];
      try done.
    + rewrite Hr in H1. rewrite Hr' in H2 by done. simplify_eq.
      rewrite Hnodes in Hhead. simpl in Hhead.
      by destruct (Hother r2 c2 Hne2 H2).
    + rewrite Hr in H2. rewrite Hr' in H1 by done. simplify_eq.
      rewrite Hnodes in Hhead. simpl in Hhead.
      by destruct (Hother r1 c1 Hne1 H1).
    + rewrite Hr' in H1, H2 by done. by apply (Hdistinct r1 r2 c1 c2).
Qed.

Lemma managed_delete baseCtx st st1 r :
  managed baseCtx st →
  contexts st1 = delete r (contexts st) →
  next_cancel st1 = next_cancel st →
  managed baseCtx st1.
Proof.
  intros [Hbase Hentry Hdistinct] Hmap Hnext.
  assert (Hr' : ∀ r' c', lookup_ctx st1 r' = Some c' → lookup_ctx st r' = Some c').
  { intros r' c'. unfold lookup_ctx. rewrite Hmap.
    destruct (decide (r' = r)) as [-> | Hne].
    - by rewrite lookup_delete_eq.
    - by rewrite lookup_delete_ne. }
  constructor.
  - intros id Hin. rewrite Hnext. by apply Hbase.
  - intros r' c' Hc'. rewrite Hnext. by apply (Hentry r'), Hr'.
  - intros r1 r2 c1 c2 H1 H2. apply (Hdistinct r1 r2 c1 c2); by apply Hr'.
Qed.

(** The node the allocator hands out next belongs to no entry and not to
    [baseCtx]. *)
Lemma managed_next_fresh baseCtx st :
  managed baseCtx st →
  (next_cancel st ∉ cancel_nodes baseCtx)
  ∧ ∀ r' c', lookup_ctx st r' = Some c' →
             head (cancel_nodes c') ≠ Some (next_cancel st).
Proof.
  intros [Hbase Hentry _]. split.
  - intros Hin. specialize (Hbase _ Hin). lia.
  - intros r' c' Hc'. destruct (Hentry r' c' Hc') as (id & -> & _ & Hlt & _).
    simpl. intros [= ->]. lia.
Qed.

Lemma on_fetchCtx_managed baseCtx st r :
  managed baseCtx st →
  ∃ st1 c, on_fetchCtx baseCtx st r = Replied st1 (Some c) ∧ managed baseCtx st1.
Proof.
  intros Hm. destruct (lookup_ctx st r) as [c |] eqn:Hc.
  - exists st, c. unfold on_fetchCtx. by rewrite Hc.
  - destruct (managed_next_fresh baseCtx st Hm) as [Hnot Hother].
    eexists _, _. split; [by apply on_fetchCtx_absent |].
    eapply (managed_update baseCtx st) with (r := r) (id := next_cancel st); simpl;
      [done | reflexivity | lia | done | done | lia | done |].
    intros r' c' _. apply Hother.
Qed.

Lemma on_set_managed baseCtx st r k v :
  managed baseCtx st → k ≠ cancelKey →
  ∃ st1 c, on_set baseCtx st r k v = Replied st1 (VContext c) ∧ managed baseCtx st1.
Proof.
  intros Hm Hk. destruct (lookup_ctx st r) as [c |] eqn:Hc.
  - destruct (managed_entry _ _ Hm r c Hc) as (id & Hnodes & Hv & Hlt & Hnot).
    eexists _, _. split; [by apply on_set_present |].
    eapply (managed_update baseCtx st) with (r := r) (id := id);
      [done | reflexivity | simpl; lia | done
      | by rewrite Value_WithValue_ne | done | done |].
    intros r' c' Hne Hc' Hhead. apply Hne.
    apply (managed_distinct _ _ Hm r' r c' c Hc' Hc).
    by rewrite Hhead, Hnodes.
  - destruct (managed_next_fresh baseCtx st Hm) as [Hnot Hother].
    eexists _, _. split; [by apply on_set_absent |].
    eapply (managed_update baseCtx st) with (r := r) (id := next_cancel st); simpl;
      [done | reflexivity | lia | done | done | lia | done |].
    intros r' c' _. apply Hother.
Qed.

(** In a managed store [case <-kill] cancels the node of the entry, finds its
    chain done and deletes it; the other chains and [baseCtx] do not have that
    node. *)
Lemma on_kill_managed baseCtx st r c :
  managed baseCtx st →
  lookup_ctx st r = Some c →
  ∃ id, on_kill st r = Replied (set_contexts (delete r) (call_cancel id st)) None
    ∧ Value c cancelKey = VCancelFunc id
    ∧ id ∈ cancel_nodes c
    ∧ (id ∉ cancel_nodes baseCtx)
    ∧ ∀ r' c', r' ≠ r → lookup_ctx st r' = Some c' → id ∉ cancel_nodes c'.
Proof.
  intros Hm Hc.
  destruct (managed_entry _ _ Hm r c Hc) as (id & Hnodes & Hv & Hlt & Hnot).
  assert (Hin : id ∈ cancel_nodes c) by (rewrite Hnodes; apply list_elem_of_here).
  exists id. split; [by apply (on_kill_owned st r c id) |].
  split; [done |]. split; [done |]. split; [done |].
  intros r' c' Hne Hc'.
  destruct (managed_entry _ _ Hm r' c' Hc') as (id' & Hnodes' & _ & _ & _).
  rewrite Hnodes'. intros [-> | Hin']%elem_of_cons; [| done].
  apply Hne. apply (managed_distinct _ _ Hm r' r c' c Hc' Hc).
  by rewrite Hnodes, Hnodes'.
Qed.

Lemma serve_plain baseCtx st m :
  managed baseCtx st → plain m = true →
  ∃ st1 a, serve baseCtx st m = Replied st1 a ∧ managed baseCtx st1.
Proof.
  intros Hm Hplain. destruct m as [r | r oc | r k | r k v | r]; simpl in *.
  - destruct (on_fetchCtx_managed baseCtx st r Hm) as (st1 & c & -> & H1).
    simpl. eauto.
  - done.
  - unfold on_fetch. destruct (lookup_ctx st r); simpl; eauto.
  - apply bool_decide_eq_true in Hplain.
    destruct (on_set_managed baseCtx st r k v Hm Hplain) as (st1 & c & -> & H1).
    simpl. eauto.
  - destruct (lookup_ctx st r) as [c |] eqn:Hc.
    + destruct (on_kill_managed baseCtx st r c Hm Hc) as (id & -> & _).
      simpl. eexists _, _. split; [done |].
      by apply (managed_delete baseCtx st _ r).
    + exists st, (ErrorReply None). split; [| done].
      unfold on_kill. apply lookup_ctx_None in Hc as [-> | ->]; done.
Qed.

Lemma worker_plain baseCtx ms : ∀ st,
  managed baseCtx st →
  forallb plain ms = true →
  ∃ st' replies,
    worker baseCtx st (Recv <$> ms) = (st', replies, Selecting)
    ∧ managed baseCtx st'.
Proof.
  induction ms as [| m ms IH]; intros st Hm Hall; csimpl in *.
  - by exists st, [].
  - apply andb_true_iff in Hall as [Hp Hps].
    destruct (serve_plain baseCtx st m Hm Hp) as (st1 & a & -> & H1).
    destruct (IH st1 H1 Hps) as (st2 & replies & -> & H2).
    by exists st2, (a :: replies).
Qed.

(** X9: an eviction cancels its own scope only.  After [Start], with any
    options, and any run of plain messages ([GetContext], [Get], [Evict], and
    [Set] of keys other than 1), [Evict(r)] on a request that has a chain
    returns, has cancelled exactly one node, which closes the [Done] channel of
    that chain, and leaves the root scope and the chain of every other request
    as cancelled or not as they were. *)
Theorem Evict_cancels_own_scope options ms st replies s r c :
  forallb plain ms = true →
  worker (rootCtx (Start options)) (heap (Start options)) (Recv <$> ms)
    = (st, replies, s) →
  lookup_ctx st r = Some c →
  s = Selecting
  ∧ ∃ id st1, Evict st r = Replied st1 None
    ∧ fired st1 = {[ id ]} ∪ fired st
    ∧ Done (fired st1) c = true
    ∧ Done (fired st1) (rootCtx (Start options))
      = Done (fired st) (rootCtx (Start options))
    ∧ ∀ r' c', r' ≠ r → lookup_ctx st r' = Some c' →
        lookup_ctx st1 r' = Some c'
        ∧ Done (fired st1) c' = Done (fired st) c'.
Proof.
  intros Hall Hrun Hc.
  destruct (worker_plain _ ms _ (managed_Start options) Hall)
    as (st' & replies' & Hrun' & Hm).
  rewrite Hrun in Hrun'. simplify_eq. split; [done |].
  destruct (on_kill_managed _ st' r c Hm Hc) as (id & Hev & Hv & Hin & Hbase & Hother).
  exists id, (set_contexts (delete r) (call_cancel id st')).
  split; [done |]. split; [done |].
  split; [apply (Done_cancel_node _ c id); [done | simpl; set_solver] |].
  split; [by apply (Done_cancel_other (fired st')) |].
  intros r' c' Hne Hc'. split.
  - rewrite lookup_ctx_delete_ne by done. by unfold lookup_ctx in *.
  - apply (Done_cancel_other (fired st')). by apply (Hother r').
Qed.

Lemma Evict_cancels_own_scope_witness :
  let ms := [setValueMessage 7 (KString "user") (VString "alice");
             fetchCtxMessage 8] in
  ∃ st c7 c8 st1 replies,
    worker baseCtx0 store0 (Recv <$> ms) = (st, replies, Selecting)
    ∧ lookup_ctx st 7 = Some c7 ∧ lookup_ctx st 8 = Some c8
    ∧ Evict st 7 = Replied st1 None
    ∧ Done (fired st1) c7 = true
    ∧ Done (fired st1) c8 = false
    ∧ Done (fired st1) baseCtx0 = false.
Proof.
  intros ms.
  destruct (worker baseCtx0 store0 (Recv <$> ms)) as [[st replies] s] eqn:Hrun.
  destruct (lookup_ctx st 7) as [c7 |] eqn:H7;
    [| vm_compute in Hrun; injection Hrun as <- _ _; by vm_compute in H7].
  destruct (Evict_cancels_own_scope None ms st replies s 7 c7 eq_refl Hrun H7)
    as (-> & id & st1 & Hev & _ & Hdone & Hroot & Hothers).
  destruct (lookup_ctx st 8) as [c8 |] eqn:H8;
    [| vm_compute in Hrun; injection Hrun as <- _; by vm_compute in H8].
  destruct (Hothers 8%positive c8) as [_ Hdone8]; [done | done |].
  exists st, c7, c8, st1, replies.
  split; [done |]. split; [done |]. split; [done |]. split; [done |].
  split; [done |].
  vm_compute in Hrun. injection Hrun as <- _.
  split.
  - rewrite Hdone8. vm_compute in H8. injection H8 as <-. by vm_compute.
  - unfold baseCtx0. rewrite Hroot. by vm_compute.
Defined.

(** ** The options *)

(** X10: [SaneDefaults] leaves a buffer size and a number of workers of at
    least 1 and a context that is not nil; it replaces what is not positive
    by 1 and nil by [Background()], keeps every other setting, and applying it
    again changes nothing. *)
Theorem SaneDefaults_sane o :
  (1 ≤ BufferSize (SaneDefaults o))%Z
  ∧ (1 ≤ NumWorkers (SaneDefaults o))%Z
  ∧ Context (SaneDefaults o) = Some (default Background (Context o))
  ∧ ((BufferSize o ≤ 0)%Z → BufferSize (SaneDefaults o) = 1%Z)
  ∧ ((0 < BufferSize o)%Z → BufferSize (SaneDefaults o) = BufferSize o)
  ∧ ((NumWorkers o ≤ 0)%Z → NumWorkers (SaneDefaults o) = 1%Z)
  ∧ ((0 < NumWorkers o)%Z → NumWorkers (SaneDefaults o) = NumWorkers o)
  ∧ SaneDefaults (SaneDefaults o) = SaneDefaults o.
Proof.
  destruct o as [b n c]. unfold SaneDefaults. simpl.
  destruct (Z.leb_spec b 0) as [Hb | Hb], (Z.leb_spec n 0) as [Hn | Hn]; simpl.
  all: rewrite ?(proj2 (Z.leb_gt _ _) Hb), ?(proj2 (Z.leb_gt _ _) Hn).
  all: repeat split; try lia; by destruct c.
Qed.

Lemma SaneDefaults_sane_witness :
  BufferSize (SaneDefaults (NewOptions None 4 (-2))) = 1%Z
  ∧ NumWorkers (SaneDefaults (NewOptions None 4 (-2))) = 4%Z.
Proof.
  destruct (SaneDefaults_sane (NewOptions None 4 (-2)))
    as (_ & _ & _ & Hb & _ & _ & Hn & _).
  split; [apply Hb | apply Hn]; simpl; lia.
Defined.

(** ** The state after Start *)

Lemma Start_bufferSize options : 1 ≤ bufferSize (Start options).
Proof.
  unfold Start, startBackdrop, SaneDefaults. simpl.
  destruct (Z.leb_spec (BufferSize (default (NewOptions None 0 0) options)) 0); lia.
Qed.

(** ** More on the goroutines *)

Lemma step_constants a s s' :
  step a s = Some s' →
  bufferSize s' = bufferSize s ∧ rootCtx s' = rootCtx s
  ∧ length (pool s') = length (pool s).
Proof.
  intros Hstep.
  destruct a as [| | | | i | i | m | i ch | i | id]; simpl in Hstep;
    repeat case_match; simplify_eq; simpl; by rewrite ?length_insert.
Qed.

Lemma run_constants schedule : ∀ s s',
  run schedule s = Some s' →
  bufferSize s' = bufferSize s ∧ rootCtx s' = rootCtx s
  ∧ length (pool s') = length (pool s).
Proof.
  induction schedule as [| a schedule IH]; intros s s' Hrun; simpl in Hrun.
  - by simplify_eq.
  - destruct (step a s) as [s1 |] eqn:Hstep; [| done].
    destruct (step_constants a s s1 Hstep) as (Hb & Hr & Hp).
    destruct (IH s1 s' Hrun) as (Hb' & Hr' & Hp').
    repeat split; congruence.
Qed.

Lemma exited_lt pool i p :
  pool !! i = Some p → is_exited p = false → exited pool < length pool.
Proof.
  revert i. induction pool as [| p0 pool IH]; intros [| i] Hi Hp; simplify_eq/=.
  - rewrite Hp. pose proof (exited_le pool). lia.
  - specialize (IH i Hi Hp). destruct (is_exited p0); lia.
Qed.

(** X12: a worker that has left its loop is never held up by its
    acknowledgment: [stopped] has room for one value per worker, so in every
    state that a schedule reaches from [Start], a worker at [stopped <- true]
    can send and return. *)
Theorem acknowledgment_never_blocks options schedule s i :
  run schedule (Start options) = Some s →
  pool s !! i = Some AtStopped →
  ∃ s', step (Acknowledges i) s = Some s'
    ∧ stopped s' = S (stopped s)
    ∧ pool s' !! i = Some Exited.
Proof.
  intros Hrun Hi.
  destruct (run_stop_inv schedule _ _ _ (stop_inv_Start options) Hrun)
    as [_ _ _ Hacks _ _ _ _].
  pose proof (exited_lt (pool s) i AtStopped Hi eq_refl) as Hlt.
  simpl. rewrite Hi. rewrite decide_True by lia.
  eexists. split; [done |]. split; [done |]. simpl.
  apply list_lookup_insert_eq. by apply lookup_lt_Some in Hi.
Qed.

Lemma acknowledgment_never_blocks_witness :
  ∃ s s', run [CallStop; SupervisorWakes; Halts 0] (Start None) = Some s
    ∧ step (Acknowledges 0) s = Some s'
    ∧ stopped s' = S (stopped s)
    ∧ pool s' !! 0 = Some Exited.
Proof.
  destruct (run [CallStop; SupervisorWakes; Halts 0] (Start None))
    as [s |] eqn:Hrun; [| by vm_compute in Hrun].
  destruct (acknowledgment_never_blocks None _ s 0 Hrun) as (s' & ?).
  - vm_compute in Hrun. by injection Hrun as <-.
  - by exists s, s'.
Defined.

Lemma halted_insert (pool : list worker_pc) i p q n :
  pool !! i = Some q → halted p = halted q →
  (∀ j p', pool !! j = Some p' → halted p' = bool_decide (j < n)) →
  ∀ j p', <[ i := p ]> pool !! j = Some p' → halted p' = bool_decide (j < n).
Proof.
  intros Hi Hpq Hall j p' Hj. destruct (decide (i = j)) as [<- | Hne].
  - rewrite list_lookup_insert_eq in Hj by (by apply lookup_lt_Some in Hi).
    simplify_eq. rewrite Hpq. by apply Hall.
  - rewrite list_lookup_insert_ne in Hj by done. by apply Hall.
Qed.

Lemma halt_inv_Start options : halt_inv (Start options).
Proof.
  constructor; [| done].
  intros i p Hi. unfold Start, startBackdrop in Hi. simpl in Hi.
  apply lookup_replicate in Hi as [-> _].
  by rewrite bool_decide_eq_false_2 by (simpl; lia).
Qed.

Lemma step_halt_inv a s s' :
  halt_inv s → step a s = Some s' → halt_inv s'.
Proof.
  intros [Hpool Hdone] Hstep.
  destruct a as [| | | | i | i | m | i ch | i | id]; simpl in Hstep.
  - (* CallStop *)
    destruct (stopper s); simplify_eq. constructor; simpl; [done |].
    intros Hs. apply (Done_mono (fired (heap s))); [set_solver | by apply Hdone].
  - (* StopReceives *)
    destruct (stopper s) as [| j |]; [done | | done].
    destruct (stopped s); [done |]. case_decide; simplify_eq. by constructor.
  - (* StopReturns *)
    destruct (stopper s) as [| j |]; [done | | done].
    case_decide; simplify_eq. by constructor.
  - (* SupervisorWakes *)
    destruct (supervisor s) eqn:Hsup; [| done].
    destruct (Done _ _) eqn:Hd; simplify_eq. constructor; simpl; [| done].
    intros i p Hi. by rewrite (Hpool i p Hi).
  - (* Halts *)
    destruct (supervisor s) as [| j] eqn:Hsup; [done |].
    destruct (pool s !! i) as [[| | |] |] eqn:Hi; try done.
    case_decide; simplify_eq. constructor; simpl.
    + intros i p Hp. destruct (decide (j = i)) as [<- | Hne].
      * rewrite list_lookup_insert_eq in Hp by (by apply lookup_lt_Some in Hi).
        simplify_eq. simpl. symmetry. apply bool_decide_eq_true. lia.
      * rewrite list_lookup_insert_ne in Hp by done.
        rewrite (Hpool i p Hp). simpl. apply bool_decide_ext. lia.
    + intros _. by apply Hdone.
  - (* Acknowledges *)
    destruct (pool s !! i) as [[| | |] |] eqn:Hi; try done.
    case_decide; simplify_eq. constructor; simpl; [| done].
    by apply (halted_insert (pool s) i Exited AtStopped).
  - (* Sends *)
    case_decide; simplify_eq. by constructor.
  - (* Serves *)
    destruct (pool s !! i) as [[| | |] |] eqn:Hi; try done.
    destruct (take ch (mailbox s)) as [[m q] |]; [| done].
    pose proof (serve_fired (rootCtx s) (heap s) m) as Hfired.
    destruct (serve (rootCtx s) (heap s) m) as [st a | st c]; simplify_eq;
      simpl in Hfired.
    + constructor; simpl; [done |].
      intros Hs. apply (Done_mono (fired (heap s))); [done | by apply Hdone].
    + constructor; simpl.
      * by apply (halted_insert (pool s) i _ AtSelect).
      * intros Hs. apply (Done_mono (fired (heap s))); [done | by apply Hdone].
  - (* Resumes *)
    destruct (pool s !! i) as [[| r c | |] |] eqn:Hi; try done.
    destruct (Done _ c); simplify_eq. constructor; simpl; [| done].
    by apply (halted_insert (pool s) i AtSelect (InEvict r c)).
  - (* Cancels *)
    simplify_eq. constructor; simpl; [done |].
    intros Hs. apply (Done_mono (fired (heap s))); [set_solver | by apply Hdone].
Qed.

Lemma run_halt_inv schedule : ∀ s s',
  halt_inv s → run schedule s = Some s' → halt_inv s'.
Proof.
  induction schedule as [| a schedule IH]; intros s s' Hinv Hrun; simpl in Hrun.
  - by simplify_eq.
  - destruct (step a s) as [s1 |] eqn:Hstep; [| done].
    apply (IH s1); [| done]. by apply (step_halt_inv a s).
Qed.

(** X13: no worker leaves its loop while the root scope is live, and the
    workers leave in the order of [workerChannels]: in every state that a
    schedule reaches from [Start], if a worker is past its loop then the root
    scope is cancelled and every worker before it is past its loop too. *)
Theorem workers_halt_in_order options schedule s i p :
  run schedule (Start options) = Some s →
  pool s !! i = Some p →
  halted p = true →
  Done (fired (heap s)) (rootCtx s) = true
  ∧ i < halts_sent (supervisor s)
  ∧ ∀ j, j < i → ∃ q, pool s !! j = Some q ∧ halted q = true.
Proof.
  intros Hrun Hi Hp.
  destruct (run_halt_inv schedule _ _ (halt_inv_Start options) Hrun)
    as [Hpool Hdone].
  pose proof (Hpool i p Hi) as Hlt. rewrite Hp in Hlt.
  symmetry in Hlt. apply bool_decide_eq_true in Hlt.
  split; [apply Hdone; destruct (supervisor s); simpl in *; [lia | done] |].
  split; [done |].
  intros j Hj. destruct (pool s !! j) as [q |] eqn:Hq.
  - exists q. split; [done |]. rewrite (Hpool j q Hq).
    apply bool_decide_eq_true. lia.
  - apply lookup_ge_None in Hq. apply lookup_lt_Some in Hi. lia.
Qed.

Lemma workers_halt_in_order_witness :
  ∃ s, run [CallStop; SupervisorWakes; Halts 0; Halts 1]
           (Start (Some (NewOptions None 3 1))) = Some s
    ∧ Done (fired (heap s)) (rootCtx s) = true
    ∧ ∀ j, j < 1 → ∃ q, pool s !! j = Some q ∧ halted q = true.
Proof.
  destruct (run [CallStop; SupervisorWakes; Halts 0; Halts 1]
              (Start (Some (NewOptions None 3 1)))) as [s |] eqn:Hrun;
    [| by vm_compute in Hrun].
  destruct (workers_halt_in_order _ _ s 1 AtStopped Hrun) as (Hdone & _ & Hbefore).
  - vm_compute in Hrun. by injection Hrun as <-.
  - done.
  - by exists s.
Defined.

(** ** A call on an idle worker *)

Lemma take_snoc ch q m b :
  channel_of m = ch → buffered ch q = 0 →
  take ch (q ++ [(m, b)]) = Some (m, q).
Proof.
  intros Hch. induction q as [| p q IH]; simpl; intros Hq.
  - by rewrite decide_True.
  - case_decide; [simpl in Hq; lia |]. simpl in Hq. by rewrite IH.
Qed.

(** X15: the public functions are the cases of the worker.  In every state
    that a schedule reaches from [Start], when a worker is at its [select] and
    the channel of a message is empty, the message can be sent and that worker
    can take it; the store is then the one its case leaves, from the root scope
    of [Start], the other channels are as before, and the reply of the case,
    if it does not block, is the one reply added. *)
Theorem idle_call_served options schedule s i m :
  run schedule (Start options) = Some s →
  pool s !! i = Some AtSelect →
  buffered (channel_of m) (mailbox s) = 0 →
  ∃ s', run [Sends m; Serves i (channel_of m)] s = Some s'
    ∧ heap s' = store_of (serve (rootCtx (Start options)) (heap s) m)
    ∧ mailbox s' = mailbox s
    ∧ (∀ st a, serve (rootCtx (Start options)) (heap s) m = Replied st a →
         sent s' = sent s ++ [a] ∧ pool s' = pool s)
    ∧ (∀ st c, serve (rootCtx (Start options)) (heap s) m = Blocked st c →
         sent s' = sent s ∧ pool s' = <[ i := InEvict (Request m) c ]> (pool s)).
Proof.
  intros Hrun Hi Hempty.
  destruct (run_constants schedule _ s Hrun) as (Hbuf & Hroot & _).
  pose proof (Start_bufferSize options) as Hpos.
  remember (rootCtx (Start options)) as base eqn:Hbase. clear Hbase Hrun.
  simpl. rewrite decide_True by lia. simpl. rewrite Hi.
  rewrite (take_snoc _ _ _ _ eq_refl Hempty). rewrite Hroot.
  destruct (serve base (heap s) m) as [st a | st c] eqn:Hserve.
  - eexists. split; [done |]. simpl. split; [done |]. split; [done |].
    split; [by intros ? ? [= <- <-] | done].
  - eexists. split; [done |]. simpl. split; [done |]. split; [done |].
    split; [done | by intros ? ? [= <- <-]].
Qed.

Lemma idle_call_served_witness :
  ∃ s', run [Sends early_set; Serves 0 set_] (Start None) = Some s'
    ∧ heap s' = store_of (Set_ baseCtx0 store0 7 (KString "user") (VString "alice"))
    ∧ mailbox s' = [].
Proof.
  destruct (idle_call_served None [] (Start None) 0 early_set eq_refl eq_refl eq_refl)
    as (s' & Hrun & Hheap & Hbox & _).
  exists s'. split; [done |]. split; [| done].
  rewrite Hheap. reflexivity.
Defined.

(** ** The loop, event after event *)

Lemma worker_app baseCtx es1 : ∀ st es2,
  worker baseCtx st (es1 ++ es2) =
    let '(st1, replies1, s1) := worker baseCtx st es1 in
    match s1 with
    | Selecting =>
        let '(st2, replies2, s2) := worker baseCtx st1 es2 in
        (st2, replies1 ++ replies2, s2)
    | _ => (st1, replies1, s1)
    end.
Proof.
  induction es1 as [| e es1 IH]; intros st es2; simpl.
  - by destruct (worker baseCtx st es2) as [[st2 replies2] s2].
  - destruct e as [| m]; [done |].
    destruct (serve baseCtx st m) as [st1 a | st1 c]; [| done].
    rewrite IH.
    destruct (worker baseCtx st1 es1) as [[st2 replies2] s2].
    destruct s2; [| done..].
    by destruct (worker baseCtx st2 es2) as [[st3 replies3] s3].
Qed.

(** X16: the loop serves its messages in the order received, one reply each,
    and stops for good at the halt signal.  When the messages before a halt
    are all served, the worker stops with the store and the replies they
    left, whatever events follow the halt; otherwise it is blocked in a case,
    has sent fewer replies than it got messages, and serves nothing after. *)
Theorem worker_stops_at_halt baseCtx st ms es st1 replies s :
  worker baseCtx st (Recv <$> ms) = (st1, replies, s) →
  (s = Selecting
   ∧ length replies = length ms
   ∧ worker baseCtx st ((Recv <$> ms) ++ Halt :: es) = (st1, replies, Stopped))
  ∨ (s = Stuck
     ∧ length replies < length ms
     ∧ worker baseCtx st ((Recv <$> ms) ++ es) = (st1, replies, Stuck)).
Proof.
  intros Hrun.
  pose proof (worker_app baseCtx (Recv <$> ms) st) as Happ.
  assert (Hlen : ∀ st, let '(st1, replies, s) := worker baseCtx st (Recv <$> ms) in
            match s with
            | Selecting => length replies = length ms
            | Stuck => length replies < length ms
            | Stopped => False
            end).
  { clear. induction ms as [| m ms IH]; intros st; csimpl; [done |].
    destruct (serve baseCtx st m) as [st1 a | st1 c]; [| simpl; lia].
    specialize (IH st1).
    destruct (worker baseCtx st1 (Recv <$> ms)) as [[st2 replies2] s2].
    destruct s2; simpl; [lia | done | lia]. }
  specialize (Hlen st). rewrite Hrun in Hlen.
  destruct s; [left | done | right].
  - split; [done |]. split; [done |]. rewrite Happ, Hrun. simpl. by rewrite app_nil_r.
  - split; [done |]. split; [done |]. by rewrite Happ, Hrun.
Qed.

Lemma worker_stops_at_halt_witness :
  let ms := [setValueMessage 7 (KString "user") (VString "alice");
             fetchValueMessage 7 (KString "user")] in
  ∃ st1 replies,
    worker baseCtx0 store0 (Recv <$> ms) = (st1, replies, Selecting)
    ∧ worker baseCtx0 store0 ((Recv <$> ms) ++ [Halt; Recv (killMessage 7)])
      = (st1, replies, Stopped).
Proof.
  intros ms.
  destruct (worker baseCtx0 store0 (Recv <$> ms)) as [[st1 replies] s] eqn:Hrun.
  destruct (worker_stops_at_halt baseCtx0 store0 ms [Recv (killMessage 7)]
              st1 replies s Hrun) as [(-> & _ & Hhalt) | (-> & _ & _)].
  - by exists st1, replies.
  - by vm_compute in Hrun.
Defined.

(** ** Sets of distinct keys *)

Lemma serve_set baseCtx st r k v :
  k ≠ cancelKey ∨ is_Some (lookup_ctx st r) →
  ∃ st1 c, serve baseCtx st (setValueMessage r k v)
           = Replied st1 (ValueReply (VContext c))
    ∧ lookup_ctx st1 r = Some c ∧ Value c k = v.
Proof.
  intros Hk. simpl. destruct (lookup_ctx st r) as [c |] eqn:Hc.
  - rewrite (on_set_present _ _ _ _ _ c Hc). simpl. eexists _, _.
    split; [done |]. split; [apply lookup_ctx_insert | apply Value_WithValue_eq].
  - destruct Hk as [Hk | [? ?]]; [| done].
    rewrite (on_set_absent _ _ _ _ _ Hc). simpl. eexists _, _.
    split; [done |]. split; [apply lookup_ctx_insert |].
    rewrite Value_WithValue_ne by done. apply Value_WithValue_eq.
Qed.

Lemma set_messages_keep r k kvs :
  k ∉ kvs.*1 → forallb (keeps r k) (set_messages r kvs) = true.
Proof.
  induction kvs as [| [k' v'] kvs IH]; csimpl; intros Hnot; [done |].
  rewrite not_elem_of_cons in Hnot. destruct Hnot as [Hne Hnot].
  rewrite (IH Hnot), andb_true_r. apply orb_true_iff. right.
  by apply bool_decide_eq_true.
Qed.

(** X17: no write is lost.  [Set] calls on one request for pairwise distinct
    keys, none of them the key 1, are all answered, and afterwards [Get]
    answers for each key the value that was set for it. *)
Theorem distinct_Sets_kept baseCtx r kvs : ∀ st,
  NoDup kvs.*1 →
  cancelKey ∉ kvs.*1 →
  ∃ st' replies,
    worker baseCtx st (Recv <$> set_messages r kvs) = (st', replies, Selecting)
    ∧ length replies = length kvs
    ∧ ∀ k v, (k, v) ∈ kvs → Get st' r k = Replied st' (answer v).
Proof.
  induction kvs as [| [k v] kvs IH]; intros st Hnodup Hkey; csimpl in *.
  - exists st, []. split; [done |]. split; [done |].
    intros k v Hin. by apply elem_of_nil in Hin.
  - apply NoDup_cons in Hnodup as [Hk Hnodup].
    rewrite not_elem_of_cons in Hkey. destruct Hkey as [Hne Hkey].
    destruct (serve_set baseCtx st r k v) as (st1 & c & Hserve & Hc & Hv);
      [by left |].
    change (map_outcome ValueReply (on_set baseCtx st r k v))
      with (serve baseCtx st (setValueMessage r k v)).
    rewrite Hserve.
    destruct (IH st1 Hnodup Hkey) as (st' & replies & Hrun & Hlen & Hget).
    change (list_fmap message event Recv (set_messages r kvs))
      with (Recv <$> set_messages r kvs).
    rewrite Hrun. eexists _, _. split; [done |].
    split; [simpl; by rewrite Hlen |].
    intros k' v' [[= -> ->] | Hin]%elem_of_cons; [| by apply Hget].
    destruct (worker_keeps baseCtx _ st1 r k c st' replies
                (set_messages_keep r k kvs Hk) Hc Hrun) as (c' & Hc' & Hv').
    rewrite (Get_answer _ _ _ _ Hc'). congruence.
Qed.

Lemma distinct_Sets_kept_witness :
  let kvs := [(KInt 0, VString "testing"); (KInt 2, VString "testing");
              (KString "user", VString "alice")] in
  ∃ st' replies,
    worker baseCtx0 store0 (Recv <$> set_messages 7 kvs) = (st', replies, Selecting)
    ∧ Get st' 7 (KInt 0) = Replied st' (VString "testing", None)
    ∧ Get st' 7 (KString "user") = Replied st' (VString "alice", None).
Proof.
  intros kvs.
  destruct (distinct_Sets_kept baseCtx0 7 kvs store0)
    as (st' & replies & Hrun & _ & Hget).
  - cbn. repeat (apply NoDup_cons; split; [rewrite ?not_elem_of_cons;
      repeat split; (discriminate || apply not_elem_of_nil) |]).
    apply NoDup_nil_2.
  - cbn. rewrite !not_elem_of_cons.
    repeat split; (discriminate || apply not_elem_of_nil).
  - exists st', replies. split; [done |]. split.
    + apply (Hget (KInt 0) (VString "testing")). apply list_elem_of_here.
    + apply (Hget (KString "user") (VString "alice")).
      do 2 apply list_elem_of_further. apply list_elem_of_here.
Defined.

(** ** Stop runs to its end *)

Lemma run_app a : ∀ b s,
  run (a ++ b) s = match run a s with
                   | Some s1 => run b s1
                   | None => None
                   end.
Proof.
  induction a as [| x a IH]; intros b s; simpl; [done |].
  destruct (step x s); [apply IH | done].
Qed.

Lemma run_Halts m : ∀ j s,
  supervisor s = Halting j →
  pool s = replicate j AtStopped ++ replicate m AtSelect →
  ∃ s', run (Halts <$> seq j m) s = Some s'
    ∧ pool s' = replicate (j + m) AtStopped
    ∧ stopped s' = stopped s ∧ stopper s' = stopper s
    ∧ mailbox s' = mailbox s ∧ heap s' = heap s.
Proof.
  induction m as [| m IH]; intros j s Hsup Hpool; csimpl.
  - exists s. rewrite Hpool, Nat.add_0_r. by rewrite app_nil_r.
  - assert (Hj : pool s !! j = Some AtSelect).
    { rewrite Hpool, lookup_app_r by (rewrite length_replicate; lia).
      by rewrite length_replicate, Nat.sub_diag. }
    rewrite Hsup, Hj. rewrite decide_True by done.
    set (s1 := with_supervisor _ _).
    destruct (IH (S j) s1) as (s' & Hrun & Hp & Hs & Hst & Hm & Hh); [| | exists s'].
    + done.
    + subst s1. cbn [pool with_supervisor with_pool]. rewrite Hpool.
      rewrite insert_app_r_alt by (rewrite length_replicate; lia).
      by rewrite length_replicate, Nat.sub_diag, (replicate_S_end j), <- app_assoc.
    + split; [done |]. rewrite Hp. split; [f_equal; lia | done].
Qed.

Lemma run_Acknowledges m : ∀ j s,
  pool s = replicate j Exited ++ replicate m AtStopped →
  stopped s = j →
  ∃ s', run (Acknowledges <$> seq j m) s = Some s'
    ∧ pool s' = replicate (j + m) Exited
    ∧ stopped s' = j + m ∧ stopper s' = stopper s
    ∧ mailbox s' = mailbox s ∧ heap s' = heap s.
Proof.
  induction m as [| m IH]; intros j s Hpool Hstopped; csimpl.
  - exists s. rewrite Hpool, Nat.add_0_r. by rewrite app_nil_r.
  - assert (Hj : pool s !! j = Some AtStopped).
    { rewrite Hpool, lookup_app_r by (rewrite length_replicate; lia).
      by rewrite length_replicate, Nat.sub_diag. }
    rewrite Hj. rewrite decide_True
      by (rewrite Hpool, length_app, !length_replicate; simpl; lia).
    set (s1 := with_stop _ _ _ _).
    destruct (IH (S j) s1) as (s' & Hrun & Hp & Hs & Hst & Hm & Hh); [| | exists s'].
    + subst s1. cbn [pool with_stop with_pool]. rewrite Hpool.
      rewrite insert_app_r_alt by (rewrite length_replicate; lia).
      by rewrite length_replicate, Nat.sub_diag, (replicate_S_end j), <- app_assoc.
    + simpl. by rewrite Hstopped.
    + split; [done |]. rewrite Hp, Hs. split; [f_equal; lia |].
      split; [lia | done].
Qed.

Lemma run_StopReceives m : ∀ i s,
  stopper s = Reading i →
  stopped s = m →
  i + m ≤ length (pool s) →
  ∃ s', run (replicate m StopReceives) s = Some s'
    ∧ stopper s' = Reading (i + m) ∧ stopped s' = 0
    ∧ pool s' = pool s ∧ mailbox s' = mailbox s ∧ heap s' = heap s.
Proof.
  induction m as [| m IH]; intros i s Hstop Hn Hlen; simpl.
  - exists s. by rewrite Nat.add_0_r.
  - rewrite Hstop, Hn. rewrite decide_True by lia.
    set (s1 := with_stop _ _ _ _).
    destruct (IH (S i) s1) as (s' & Hrun & Hst & Hs & Hp & Hm & Hh); [| | | exists s'].
    + done.
    + done.
    + simpl. lia.
    + split; [done |]. rewrite Hst. split; [f_equal; lia | done].
Qed.

(** X18: [Stop] does return when no worker is held up.  In every state that
    a schedule reaches from [Start] in which [Stop] has not been called, the
    supervisor is still waiting and every worker is at its [select], the
    goroutines can run [Stop] to its end; every worker has then returned, the
    root scope is cancelled, and the messages that were queued are still
    there. *)
Theorem Stop_completes options schedule s :
  run schedule (Start options) = Some s →
  stopper s = NotCalled →
  supervisor s = AwaitingDone →
  Forall (fun p => p = AtSelect) (pool s) →
  ∃ s', run (stop_schedule (length (pool s))) s = Some s'
    ∧ stopper s' = Returned
    ∧ Forall (fun p => p = Exited) (pool s')
    ∧ heap s' = call_cancel (done_ s) (heap s)
    ∧ mailbox s' = mailbox s.
Proof.
  intros Hrun Hstop Hsup Hidle.
  destruct (run_stop_inv schedule _ _ _ (stop_inv_Start options) Hrun)
    as [_ Hroot Hdone Hacks _ _ _ _].
  destruct (Start_rootCtx options) as [ctx0 Hctx].
  set (n := length (pool s)).
  assert (Hpool : pool s = replicate n AtSelect).
  { apply list_eq_same_length with n; [by rewrite length_replicate | done |].
    intros i p q Hi Hp Hq. apply lookup_replicate in Hq as [-> _].
    by apply (Forall_lookup_1 _ _ _ _ Hidle) in Hp. }
  assert (Hstopped : stopped s = 0).
  { rewrite Hpool, exited_replicate in Hacks. lia. }
  unfold stop_schedule. simpl. rewrite Hstop. simpl. rewrite Hsup.
  rewrite Hroot, Hctx, <- Hdone. simpl.
  rewrite bool_decide_eq_true_2 by set_solver. simpl.
  set (s1 := with_supervisor _ _).
  destruct (run_Halts n 0 s1) as (s2 & Hrun2 & Hp2 & Hs2 & Hst2 & Hm2 & Hh2);
    [done | done |].
  rewrite run_app, Hrun2.
  destruct (run_Acknowledges n 0 s2) as (s3 & Hrun3 & Hp3 & Hs3 & Hst3 & Hm3 & Hh3);
    [by rewrite Hp2 | by rewrite Hs2 |].
  rewrite run_app, Hrun3.
  destruct (run_StopReceives n 0 s3) as (s4 & Hrun4 & Hst4 & Hs4 & Hp4 & Hm4 & Hh4);
    [by rewrite Hst3, Hst2 | by rewrite Hs3
    | rewrite Hp3, length_replicate; simpl; lia |].
  rewrite run_app, Hrun4. simpl. rewrite Hst4.
  rewrite decide_True by (rewrite Hp4, Hp3, length_replicate; simpl; lia).
  eexists. split; [done |]. simpl. split; [done |].
  split; [rewrite Hp4, Hp3; by apply Forall_replicate |].
  split; [by rewrite Hh4, Hh3, Hh2 | by rewrite Hm4, Hm3, Hm2].
Qed.

Lemma Stop_completes_witness :
  ∃ s s', run [Sends early_set] (Start (Some (NewOptions None 3 2))) = Some s
    ∧ run (stop_schedule 3) s = Some s'
    ∧ stopper s' = Returned
    ∧ mailbox s' = mailbox s.
Proof.
  destruct (run [Sends early_set] (Start (Some (NewOptions None 3 2))))
    as [s |] eqn:Hrun; [| by vm_compute in Hrun].
  destruct (Stop_completes _ _ s Hrun) as (s' & Hstop & Hret & _ & _ & Hbox).
  - vm_compute in Hrun. by injection Hrun as <-.
  - vm_compute in Hrun. by injection Hrun as <-.
  - vm_compute in Hrun. injection Hrun as <-. by repeat constructor.
  - exists s, s'. split; [done |]. split; [| done].
    vm_compute in Hrun. injection Hrun as <-. exact Hstop.
Defined.
